(** * Segmented LRU replacement policy (gem5 [replacement_policy::SLRU])

    A shallow embedding of [slru_rp.hh] and [slru_rp.cc], and of the
    second copy of [slru_rp.cc] (the text that follows the job script in
    [script.sh]), which differs in [getVictim] only: it asserts that a
    probationary candidate exists and has no fallback.

    - [ReplacementData] objects live in an arena ([objects]); a
      [std::shared_ptr<ReplacementData>] is the index of its object, so
      two pointers alias exactly when the indices are equal.
    - [Tick] is [uint64_t]; ticks are only assigned and compared.
    - [unsigned] counters are integers modulo [2^32].
    - [assert] aborts the simulation ([AssertFail]); dereferencing a
      pointer to no object, or [begin()] of an empty vector, is undefined
      behaviour ([Undefined]).
    - [curTick()] is the argument [now] of the operations that read it. *)

From stdpp Require Import base option list.
From Stdlib Require Import ZArith Lia.

Set Default Proof Using "Type".

(** ** Data model ([slru_rp.hh]) *)

Inductive Segment : Type := Probation | Protected.

#[global] Instance Segment_eq_dec : EqDecision Segment.
Proof. solve_decision. Defined.

Definition Tick : Type := Z.

(** [std::numeric_limits<Tick>::max()] *)
Definition MaxTick : Tick := (2 ^ 64 - 1)%Z.

Record SLRUReplData : Type := mkReplData {
  segment : Segment;
  lastTouch : Tick
}.

(** The constructor [SLRUReplData()]. *)
Definition SLRUReplData_new : SLRUReplData :=
  {| segment := Probation; lastTouch := 0%Z |}.

(** Identity of a [ReplacementData] object. *)
Definition addr : Type := nat.

(** A [ReplaceableEntry]: the policy only reads [replacementData]; [slot]
    tells apart two entries (two pointers) of the candidate vector. *)
Record ReplaceableEntry : Type := mkEntry {
  slot : nat;
  replacementData : addr
}.

#[global] Instance ReplaceableEntry_eq_dec : EqDecision ReplaceableEntry.
Proof. solve_decision. Defined.

(** Conversion to [unsigned]. *)
Definition to_unsigned (z : Z) : Z := (z mod 2 ^ 32)%Z.

(** [SLRURPParams]: the two sizes given at construction. *)
Record Params : Type := mkParams {
  protected_size : Z;
  probation_size : Z
}.

(** The policy object together with the objects its pointers refer to. *)
Record SLRU : Type := mkSLRU {
  protectedSize : Z;
  probationSize : Z;
  protectedEntries : Z;
  protectedList : list addr;
  objects : list SLRUReplData
}.

(** [SLRU::SLRU(const Params &p)] over a cache with no entry yet. *)
Definition SLRU_new (p : Params) : SLRU :=
  {| protectedSize := to_unsigned (protected_size p);
     probationSize := to_unsigned (probation_size p);
     protectedEntries := 0%Z;
     protectedList := [];
     objects := [] |}.

Definition with_objects (h : list SLRUReplData) (s : SLRU) : SLRU :=
  {| protectedSize := protectedSize s;
     probationSize := probationSize s;
     protectedEntries := protectedEntries s;
     protectedList := protectedList s;
     objects := h |}.

Definition with_protected (n : Z) (l : list addr) (s : SLRU) : SLRU :=
  {| protectedSize := protectedSize s;
     probationSize := probationSize s;
     protectedEntries := n;
     protectedList := l;
     objects := objects s |}.

Definition with_probationSize (n : Z) (s : SLRU) : SLRU :=
  {| protectedSize := protectedSize s;
     probationSize := n;
     protectedEntries := protectedEntries s;
     protectedList := protectedList s;
     objects := objects s |}.

(** ** Outcomes and the state monad of the operations *)

Inductive outcome (A : Type) : Type :=
| Done (a : A)
| AssertFail
| Undefined.

Arguments Done {A} a.
Arguments AssertFail {A}.
Arguments Undefined {A}.

Definition M (A : Type) : Type := SLRU -> outcome (A * SLRU).

Definition ret {A} (a : A) : M A := fun s => Done (a, s).

Definition bind {A B} (m : M A) (k : A -> M B) : M B :=
  fun s =>
    match m s with
    | Done (a, s') => k a s'
    | AssertFail => AssertFail
    | Undefined => Undefined
    end.

Notation "'let*' x := m 'in' k" := (bind m (fun x => k))
  (at level 10, x name, m at level 100, k at level 200).
Notation "m ;; k" := (bind m (fun _ => k))
  (at level 100, k at level 200, right associativity).

Definition get : M SLRU := fun s => Done (s, s).
Definition put (s : SLRU) : M unit := fun _ => Done (tt, s).
Definition abort {A} : M A := fun _ => AssertFail.
Definition undefined {A} : M A := fun _ => Undefined.

(** [assert(b)] *)
Definition assert (b : bool) : M unit := if b then ret tt else abort.

(** [*rd] : the object a pointer refers to. *)
Definition deref (rd : addr) : M SLRUReplData :=
  fun s =>
    match objects s !! rd with
    | Some d => Done (d, s)
    | None => Undefined
    end.

(** [rd->segment = v] *)
Definition set_segment (rd : addr) (v : Segment) : M unit :=
  let* d := deref rd in
  let* s := get in
  put (with_objects (<[rd := {| segment := v; lastTouch := lastTouch d |}]> (objects s)) s).

(** [rd->lastTouch = t] *)
Definition set_lastTouch (rd : addr) (t : Tick) : M unit :=
  let* d := deref rd in
  let* s := get in
  put (with_objects (<[rd := {| segment := segment d; lastTouch := t |}]> (objects s)) s).

(** [it = std::find(protectedList.begin(), protectedList.end(), rd);
     if (it != protectedList.end()) { protectedList.erase(it); protectedEntries--; }] *)
Definition erase_protected (rd : addr) : M unit :=
  let* s := get in
  match list_find (fun a => a = rd) (protectedList s) with
  | Some (it, _) =>
      put (with_protected (to_unsigned (protectedEntries s - 1))
                          (delete it (protectedList s)) s)
  | None => ret tt
  end.

(** ** Operations ([slru_rp.cc]) *)

(** [SLRU::invalidate] *)
Definition invalidate (rd : addr) : M unit :=
  let* data := deref rd in
  (if decide (segment data = Protected) then erase_protected rd else ret tt) ;;
  set_segment rd Probation ;;
  set_lastTouch rd 0%Z.

(** [SLRU::reset] *)
Definition reset (rd : addr) (now : Tick) : M unit :=
  let* data := deref rd in
  (if decide (segment data = Protected) then erase_protected rd else ret tt) ;;
  set_segment rd Probation ;;
  set_lastTouch rd now.

(** The loop of [touch] over [protectedList]: [it] is the position of the
    head of [l], [lru_it] and [oldest] are the loop's variables. *)
Fixpoint lru_scan (h : list SLRUReplData) (l : list addr)
    (it lru_it : nat) (oldest : Tick) : outcome nat :=
  match l with
  | [] => Done lru_it
  | a :: l' =>
      match h !! a with
      | None => Undefined
      | Some entry =>
          if decide (lastTouch entry < oldest)%Z
          then lru_scan h l' (S it) it (lastTouch entry)
          else lru_scan h l' (S it) lru_it oldest
      end
  end.

(** The search for the least recently touched protected entry: [lru_it]
    starts at [begin()], [oldest] at the first element's tick. *)
Definition find_lru : M nat :=
  fun s =>
    match protectedList s with
    | [] => Undefined
    | a0 :: _ =>
        match objects s !! a0 with
        | None => Undefined
        | Some first =>
            match lru_scan (objects s) (protectedList s) 0 0 (lastTouch first) with
            | Done i => Done (i, s)
            | AssertFail => AssertFail
            | Undefined => Undefined
            end
        end
    end.

(** [SLRU::touch] *)
Definition touch (rd : addr) (now : Tick) : M unit :=
  let* data := deref rd in
  (if decide (segment data = Probation) then
     let* s := get in
     if decide (protectedEntries s < protectedSize s)%Z then
       set_segment rd Protected ;;
       let* s := get in
       put (with_protected (to_unsigned (protectedEntries s + 1))
                           (protectedList s ++ [rd]) s)
     else
       let* lru_it := find_lru in
       let* s := get in
       match protectedList s !! lru_it with
       | None => undefined
       | Some lru =>
           set_segment lru Probation ;;
           let* s := get in
           put (with_protected (protectedEntries s)
                               (delete lru_it (protectedList s)) s) ;;
           set_segment rd Protected ;;
           let* s := get in
           put (with_protected (protectedEntries s)
                               (protectedList s ++ [rd]) s)
       end
   else ret tt) ;;
  set_lastTouch rd now.

(** The variables of the loop of [getVictim]. *)
Record scan : Type := mkScan {
  oldestProb : option ReplaceableEntry;
  oldestProt : option ReplaceableEntry;
  minProb : Tick;
  minProt : Tick
}.

Definition scan_init : scan :=
  {| oldestProb := None; oldestProt := None;
     minProb := MaxTick; minProt := MaxTick |}.

(** One iteration of the loop of [getVictim] in [slru_rp.cc]. *)
Definition victim_step (data : SLRUReplData) (ent : ReplaceableEntry)
    (st : scan) : scan :=
  if decide (segment data = Probation) then
    if decide (lastTouch data < minProb st)%Z
    then {| oldestProb := Some ent; oldestProt := oldestProt st;
            minProb := lastTouch data; minProt := minProt st |}
    else st
  else
    if decide (lastTouch data < minProt st)%Z
    then {| oldestProb := oldestProb st; oldestProt := Some ent;
            minProb := minProb st; minProt := lastTouch data |}
    else st.

Fixpoint victim_scan (h : list SLRUReplData)
    (candidates : list ReplaceableEntry) (st : scan) : outcome scan :=
  match candidates with
  | [] => Done st
  | ent :: rest =>
      match h !! replacementData ent with
      | None => Undefined
      | Some data => victim_scan h rest (victim_step data ent st)
      end
  end.

Definition lift_scan (h_scan : list SLRUReplData -> outcome scan) : M scan :=
  fun s =>
    match h_scan (objects s) with
    | Done st => Done (st, s)
    | AssertFail => AssertFail
    | Undefined => Undefined
    end.

(** [SLRU::getVictim] of [slru_rp.cc], with the fallback to the protected
    segment. The result is the returned pointer, [None] for [nullptr]. *)
Definition getVictim (candidates : list ReplaceableEntry) (now : Tick)
    : M (option ReplaceableEntry) :=
  assert (negb (bool_decide (candidates = []))) ;;
  let* st := lift_scan (fun h => victim_scan h candidates scan_init) in
  match oldestProb st with
  | Some e => ret (Some e)
  | None =>
      assert (bool_decide (is_Some (oldestProt st))) ;;
      match oldestProt st with
      | None => undefined
      | Some e =>
          set_segment (replacementData e) Probation ;;
          set_lastTouch (replacementData e) now ;;
          erase_protected (replacementData e) ;;
          ret (Some e)
      end
  end.

(** One iteration of the loop of the strict [getVictim]: only the
    probationary branch exists. *)
Definition strict_step (data : SLRUReplData) (ent : ReplaceableEntry)
    (st : scan) : scan :=
  if decide (segment data = Probation) then
    if decide (lastTouch data < minProb st)%Z
    then {| oldestProb := Some ent; oldestProt := oldestProt st;
            minProb := lastTouch data; minProt := minProt st |}
    else st
  else st.

Fixpoint strict_scan (h : list SLRUReplData)
    (candidates : list ReplaceableEntry) (st : scan) : outcome scan :=
  match candidates with
  | [] => Done st
  | ent :: rest =>
      match h !! replacementData ent with
      | None => Undefined
      | Some data => strict_scan h rest (strict_step data ent st)
      end
  end.

(** [SLRU::getVictim] of the second copy: it asserts that a probationary
    candidate was found and never looks at the protected segment. It does
    not read the clock. *)
Definition getVictim_strict (candidates : list ReplaceableEntry)
    : M (option ReplaceableEntry) :=
  assert (negb (bool_decide (candidates = []))) ;;
  let* st := lift_scan (fun h => strict_scan h candidates scan_init) in
  assert (bool_decide (is_Some (oldestProb st))) ;;
  ret (oldestProb st).

(** [SLRU::instantiateEntry]: [std::make_shared<SLRUReplData>()]. *)
Definition instantiateEntry : M addr :=
  let* s := get in
  put (with_objects (objects s ++ [SLRUReplData_new]) s) ;;
  ret (length (objects s)).

(** ** Call sequences

    The owning cache drives the policy through the five entry points; a
    [call] records the arguments and the tick the clock shows during the
    call. The two copies of [slru_rp.cc] differ in [getVictim] only. *)

Inductive variant : Type := Fallback | Strict.

Definition getVictimV (v : variant) (candidates : list ReplaceableEntry)
    (now : Tick) : M (option ReplaceableEntry) :=
  match v with
  | Fallback => getVictim candidates now
  | Strict => getVictim_strict candidates
  end.

Inductive call : Type :=
| CallInstantiate
| CallTouch (rd : addr) (now : Tick)
| CallReset (rd : addr) (now : Tick)
| CallInvalidate (rd : addr)
| CallGetVictim (candidates : list ReplaceableEntry) (now : Tick).

Inductive reply : Type :=
| RetData (rd : addr)
| RetVoid
| RetVictim (victim : option ReplaceableEntry).

Definition exec (v : variant) (c : call) : M reply :=
  match c with
  | CallInstantiate => let* rd := instantiateEntry in ret (RetData rd)
  | CallTouch rd now => touch rd now ;; ret RetVoid
  | CallReset rd now => reset rd now ;; ret RetVoid
  | CallInvalidate rd => invalidate rd ;; ret RetVoid
  | CallGetVictim candidates now =>
      let* e := getVictimV v candidates now in ret (RetVictim e)
  end.

Fixpoint run (v : variant) (cs : list call) : M (list reply) :=
  match cs with
  | [] => ret []
  | c :: cs' =>
      let* r := exec v c in
      let* rs := run v cs' in
      ret (r :: rs)
  end.

(** ** Reading the state *)

Definition segment_at (s : SLRU) (a : addr) : option Segment :=
  segment <$> objects s !! a.

(** The tracker invariant, in a form that can be decided on a concrete
    state: the counter is the length of the list and within the capacity,
    the capacity is an [unsigned], the list has no duplicate, its members
    are protected objects, and every protected object is a member. *)
Definition Inv (s : SLRU) : Prop :=
  protectedEntries s = Z.of_nat (length (protectedList s)) /\
  (protectedEntries s <= protectedSize s)%Z /\
  (protectedSize s < 2 ^ 32)%Z /\
  NoDup (protectedList s) /\
  Forall (fun a => segment_at s a = Some Protected) (protectedList s) /\
  Forall (fun a => segment_at s a = Some Protected -> a ∈ protectedList s)
         (seq 0 (length (objects s))).

#[global] Instance Inv_dec (s : SLRU) : Decision (Inv s).
Proof. unfold Inv. apply _. Defined.

(** The candidates of a call are entries of the cache: each refers to a
    live object. *)
Definition live_in (h : list SLRUReplData)
    (candidates : list ReplaceableEntry) : Prop :=
  Forall (fun e => is_Some (h !! replacementData e)) candidates.

Definition live (s : SLRU) (candidates : list ReplaceableEntry) : Prop :=
  live_in (objects s) candidates.

#[global] Instance live_dec s cs : Decision (live s cs).
Proof. unfold live, live_in. apply _. Defined.

(** [store rd d s]: the state after [*rd = d]. *)
Definition store (rd : addr) (d : SLRUReplData) (s : SLRU) : SLRU :=
  with_objects (<[rd := d]> (objects s)) s.

(** The state after the find-and-erase of [rd]. *)
Definition erased (rd : addr) (s : SLRU) : SLRU :=
  match list_find (fun a => a = rd) (protectedList s) with
  | Some (it, _) =>
      with_protected (to_unsigned (protectedEntries s - 1))
                     (delete it (protectedList s)) s
  | None => s
  end.

(** ** Notions used by the statements *)

(** Position [i] of [l] holds a member whose tick is minimal in [l], and
    it is the first position of that tick. *)
Definition is_lru (h : list SLRUReplData) (l : list addr) (i : nat) : Prop :=
  exists a d, l !! i = Some a /\ h !! a = Some d /\
    (forall j b e, l !! j = Some b -> h !! b = Some e ->
       (lastTouch d <= lastTouch e)%Z) /\
    (forall j b e, j < i -> l !! j = Some b -> h !! b = Some e ->
       (lastTouch d < lastTouch e)%Z).

(** What the loop keeps for one segment: the pair ([oldestProb],
    [minProb]), or ([oldestProt], [minProt]), after the candidates. *)
Fixpoint oldest_of (seg : Segment) (h : list SLRUReplData)
    (candidates : list ReplaceableEntry)
    (best : option ReplaceableEntry) (m : Tick)
    : option ReplaceableEntry * Tick :=
  match candidates with
  | [] => (best, m)
  | ent :: rest =>
      match h !! replacementData ent with
      | None => (best, m)
      | Some data =>
          if decide (segment data = seg) then
            if decide (lastTouch data < m)%Z
            then oldest_of seg h rest (Some ent) (lastTouch data)
            else oldest_of seg h rest best m
          else oldest_of seg h rest best m
      end
  end.

(** Candidate [e], at position [i], is in segment [seg], no candidate of
    [seg] has a smaller tick, and none before [i] has the same tick. *)
Definition is_oldest (seg : Segment) (h : list SLRUReplData)
    (candidates : list ReplaceableEntry) (i : nat) (e : ReplaceableEntry)
    : Prop :=
  exists d, candidates !! i = Some e /\ h !! replacementData e = Some d /\
    segment d = seg /\
    (forall j e' d', candidates !! j = Some e' ->
       h !! replacementData e' = Some d' -> segment d' = seg ->
       (lastTouch d <= lastTouch d')%Z) /\
    (forall j e' d', j < i -> candidates !! j = Some e' ->
       h !! replacementData e' = Some d' -> segment d' = seg ->
       (lastTouch d < lastTouch d')%Z).

(** Some candidate of segment [seg] has a tick below [MaxTick]. *)
Definition selectable (s : SLRU) (candidates : list ReplaceableEntry)
    (seg : Segment) : Prop :=
  exists j e d, candidates !! j = Some e /\
    objects s !! replacementData e = Some d /\
    segment d = seg /\ (lastTouch d < MaxTick)%Z.

(** Entry 0 is probationary with tick [MaxTick], entry 1 is protected. *)
Definition late_probation : SLRU :=
  {| protectedSize := 4%Z; probationSize := 4%Z; protectedEntries := 1%Z;
     protectedList := [1];
     objects := [ {| segment := Probation; lastTouch := MaxTick |};
                  {| segment := Protected; lastTouch := 5%Z |} ] |}.

(** Entry 0 is the only entry; it is protected with tick [MaxTick]. *)
Definition late_protected : SLRU :=
  {| protectedSize := 4%Z; probationSize := 4%Z; protectedEntries := 1%Z;
     protectedList := [0];
     objects := [ {| segment := Protected; lastTouch := MaxTick |} ] |}.

(** An outcome with its final state changed by [f]. *)
Definition on_state {A} (f : SLRU -> SLRU) (o : outcome (A * SLRU))
    : outcome (A * SLRU) :=
  match o with
  | Done (a, s) => Done (a, f s)
  | AssertFail => AssertFail
  | Undefined => Undefined
  end.

(** What a caller can see of the policy and of its entries, the stored
    [probationSize] left out. *)
Definition visible (s : SLRU)
    : Z * Z * list addr * list SLRUReplData :=
  (protectedSize s, protectedEntries s, protectedList s, objects s).

Definition observe {A} (o : outcome (A * SLRU))
    : outcome (A * (Z * Z * list addr * list SLRUReplData)) :=
  match o with
  | Done (a, s) => Done (a, visible s)
  | AssertFail => AssertFail
  | Undefined => Undefined
  end.

(** [m] does the same whatever [probationSize] is, and leaves it. *)
Definition oblivious (n : Z) {A} (m : M A) : Prop :=
  forall s,
    m (with_probationSize n s) = on_state (with_probationSize n) (m s).

(** ** Notions used by the further properties *)

(** [m], when it returns, takes states of [I] to states of [I]. *)
Definition keeps (I : SLRU -> Prop) {A} (m : M A) : Prop :=
  forall s a s', I s -> m s = Done (a, s') -> I s'.

(** The tick a call passes on from the clock. [invalidate] and
    [instantiateEntry] read no clock. *)
Definition call_tick (c : call) : option Tick :=
  match c with
  | CallTouch _ now | CallReset _ now | CallGetVictim _ now => Some now
  | CallInstantiate | CallInvalidate _ => None
  end.

(** Every tick the calls pass on satisfies [Q]. *)
Definition clock_in (Q : Tick -> Prop) (cs : list call) : Prop :=
  Forall (fun c => match call_tick c with Some t => Q t | None => True end) cs.

(** The clock stays below the largest tick. *)
Definition below_MaxTick (t : Tick) : Prop := (t < MaxTick)%Z.

#[global] Instance clock_below_dec cs : Decision (clock_in below_MaxTick cs).
Proof.
  unfold clock_in, below_MaxTick. apply Forall_dec. intros c.
  destruct (call_tick c); apply _.
Defined.

(** The calls of a caller that only passes pointers it got from
    [instantiateEntry], of which there are [n] so far, and never an empty
    candidate vector. *)
Fixpoint well_formed (n : nat) (cs : list call) : Prop :=
  match cs with
  | [] => True
  | CallInstantiate :: rest => well_formed (S n) rest
  | CallTouch rd _ :: rest => rd < n /\ well_formed n rest
  | CallReset rd _ :: rest => rd < n /\ well_formed n rest
  | CallInvalidate rd :: rest => rd < n /\ well_formed n rest
  | CallGetVictim candidates _ :: rest =>
      candidates <> [] /\
      Forall (fun e => replacementData e < n) candidates /\
      well_formed n rest
  end.

#[global] Instance well_formed_dec n cs : Decision (well_formed n cs).
Proof.
  revert n. induction cs as [|c cs IH]; intros n; simpl; [apply _|].
  destruct c; apply _.
Defined.

(** The capacities and the number of entries of a state. *)
Definition shape_is (c c' : Z) (n : nat) (s : SLRU) : Prop :=
  protectedSize s = c /\ probationSize s = c' /\ length (objects s) = n.

(** Every stored tick satisfies [Q]. *)
Definition ticks_in (Q : Tick -> Prop) (s : SLRU) : Prop :=
  Forall (fun d => Q (lastTouch d)) (objects s).

(** The number of [instantiateEntry] calls. *)
Fixpoint instantiations (cs : list call) : nat :=
  match cs with
  | [] => 0
  | CallInstantiate :: rest => S (instantiations rest)
  | _ :: rest => instantiations rest
  end.

(** ** Equations of the primitives *)

Section primitives.
Implicit Types (s : SLRU) (rd : addr) (d : SLRUReplData).

Lemma bind_eq {A B} (m : M A) (k : A -> M B) s a s' :
  m s = Done (a, s') -> bind m k s = k a s'.
Proof. unfold bind. intros ->. reflexivity. Qed.

Lemma bind_Done {A B} (m : M A) (k : A -> M B) s b s2 :
  bind m k s = Done (b, s2) ->
  exists a s1, m s = Done (a, s1) /\ k a s1 = Done (b, s2).
Proof.
  unfold bind. destruct (m s) as [[a s1]| |]; [|discriminate..].
  intros H. exists a, s1. split; [reflexivity|exact H].
Qed.

Lemma deref_eq s rd d : objects s !! rd = Some d -> deref rd s = Done (d, s).
Proof. unfold deref. intros ->. reflexivity. Qed.

Lemma set_segment_eq s rd d v :
  objects s !! rd = Some d ->
  set_segment rd v s
  = Done (tt, store rd {| segment := v; lastTouch := lastTouch d |} s).
Proof. intros H. unfold set_segment. rewrite (bind_eq _ _ _ _ _ (deref_eq _ _ _ H)). reflexivity. Qed.

Lemma set_lastTouch_eq s rd d t :
  objects s !! rd = Some d ->
  set_lastTouch rd t s
  = Done (tt, store rd {| segment := segment d; lastTouch := t |} s).
Proof. intros H. unfold set_lastTouch. rewrite (bind_eq _ _ _ _ _ (deref_eq _ _ _ H)). reflexivity. Qed.

Lemma erase_protected_eq s rd : erase_protected rd s = Done (tt, erased rd s).
Proof.
  unfold erase_protected, erased, bind, get.
  destruct (list_find _ _) as [[it a]|]; reflexivity.
Qed.

Lemma store_lookup_eq s rd d d0 :
  objects s !! rd = Some d0 -> objects (store rd d s) !! rd = Some d.
Proof. intros H. simpl. apply list_lookup_insert_eq. eapply lookup_lt_Some, H. Qed.

Lemma store_lookup_ne s rd d a :
  a <> rd -> objects (store rd d s) !! a = objects s !! a.
Proof. intros H. simpl. apply list_lookup_insert_ne. congruence. Qed.

Lemma store_store s rd d d' : store rd d (store rd d' s) = store rd d s.
Proof. unfold store, with_objects. simpl. rewrite list_insert_insert_eq. reflexivity. Qed.

Lemma store_erased s rd a d : store a d (erased rd s) = erased rd (store a d s).
Proof. unfold erased. simpl. destruct (list_find _ _) as [[it x]|]; reflexivity. Qed.

Lemma objects_erased s rd : objects (erased rd s) = objects s.
Proof. unfold erased. destruct (list_find _ _) as [[it x]|]; reflexivity. Qed.

(** The setter of both fields, as the operations end with it. *)
Lemma set_both_eq s rd d v t :
  objects s !! rd = Some d ->
  (set_segment rd v ;; set_lastTouch rd t) s
  = Done (tt, store rd {| segment := v; lastTouch := t |} s).
Proof.
  intros H. rewrite (bind_eq _ _ _ _ _ (set_segment_eq _ _ _ v H)).
  rewrite (set_lastTouch_eq _ _ _ t (store_lookup_eq _ _ _ _ H)).
  simpl. rewrite store_store. reflexivity.
Qed.

(** [SLRU::invalidate] and [SLRU::reset] in closed form. *)
Lemma clear_eq s rd d t :
  objects s !! rd = Some d ->
  (let* data := deref rd in
   (if decide (segment data = Protected) then erase_protected rd else ret tt) ;;
   set_segment rd Probation ;;
   set_lastTouch rd t) s
  = Done (tt, store rd {| segment := Probation; lastTouch := t |}
                (if decide (segment d = Protected) then erased rd s else s)).
Proof.
  intros H. rewrite (bind_eq _ _ _ _ _ (deref_eq _ _ _ H)).
  destruct (decide (segment d = Protected)) as [Hp|Hp].
  - rewrite (bind_eq _ _ _ _ _ (erase_protected_eq _ _)).
    apply set_both_eq with (d := d). rewrite objects_erased. exact H.
  - unfold ret at 1. unfold bind at 1. apply set_both_eq with (d := d). exact H.
Qed.

Lemma invalidate_eq s rd d :
  objects s !! rd = Some d ->
  invalidate rd s
  = Done (tt, store rd {| segment := Probation; lastTouch := 0%Z |}
                (if decide (segment d = Protected) then erased rd s else s)).
Proof. apply clear_eq. Qed.

Lemma reset_eq s rd d now :
  objects s !! rd = Some d ->
  reset rd now s
  = Done (tt, store rd {| segment := Probation; lastTouch := now |}
                (if decide (segment d = Protected) then erased rd s else s)).
Proof. apply clear_eq. Qed.

Lemma instantiateEntry_eq s :
  instantiateEntry s
  = Done (length (objects s), with_objects (objects s ++ [SLRUReplData_new]) s).
Proof. reflexivity. Qed.

End primitives.

(** ** The search of [touch] for the least recently touched member *)

Section touch_scan.
Variable h : list SLRUReplData.

Lemma lru_scan_spec l :
  Forall (fun a => is_Some (h !! a)) l ->
  forall it lru_it oldest,
  exists j, lru_scan h l it lru_it oldest = Done j /\
    ((j = lru_it /\
      forall k b e, l !! k = Some b -> h !! b = Some e ->
        (oldest <= lastTouch e)%Z)
     \/
     (exists k b e, j = it + k /\ l !! k = Some b /\ h !! b = Some e /\
        (lastTouch e < oldest)%Z /\
        (forall k' b' e', l !! k' = Some b' -> h !! b' = Some e' ->
           (lastTouch e <= lastTouch e')%Z) /\
        (forall k' b' e', k' < k -> l !! k' = Some b' -> h !! b' = Some e' ->
           (lastTouch e < lastTouch e')%Z))).
Proof.
  induction 1 as [|a l [entry Ha] _ IH]; intros it lru_it oldest; simpl.
  - exists lru_it. split; [reflexivity|]. left. split; [reflexivity|].
    intros k b e Hk. rewrite lookup_nil in Hk. discriminate.
  - rewrite Ha. destruct (decide (lastTouch entry < oldest)%Z) as [Hlt|Hge].
    + destruct (IH (S it) it (lastTouch entry)) as (j & -> & [[-> Hmin]|Hlater]).
      * exists it. split; [reflexivity|]. right.
        exists 0, a, entry. split_and!; [lia|reflexivity|exact Ha|exact Hlt| |].
        -- intros [|k'] b' e' Hb He; simpl in Hb.
           ++ injection Hb as <-. rewrite Ha in He. injection He as <-. lia.
           ++ eapply Hmin; eassumption.
        -- intros k' b' e' Hk'. lia.
      * destruct Hlater as (k & b & e & -> & Hb & He & Hlt' & Hmin & Hfirst).
        exists (S it + k). split; [reflexivity|]. right.
        exists (S k), b, e. split_and!; [lia|exact Hb|exact He|lia| |].
        -- intros [|k'] b' e' Hb' He'; simpl in Hb'.
           ++ injection Hb' as <-. rewrite Ha in He'. injection He' as <-. lia.
           ++ eapply Hmin; eassumption.
        -- intros [|k'] b' e' Hk' Hb' He'; simpl in Hb'.
           ++ injection Hb' as <-. rewrite Ha in He'. injection He' as <-. lia.
           ++ eapply Hfirst; [|eassumption..]. lia.
    + destruct (IH (S it) lru_it oldest) as (j & -> & [[-> Hmin]|Hlater]).
      * exists lru_it. split; [reflexivity|]. left. split; [reflexivity|].
        intros [|k] b e Hb He; simpl in Hb.
        -- injection Hb as <-. rewrite Ha in He. injection He as <-. lia.
        -- eapply Hmin; eassumption.
      * destruct Hlater as (k & b & e & -> & Hb & He & Hlt' & Hmin & Hfirst).
        exists (S it + k). split; [reflexivity|]. right.
        exists (S k), b, e. split_and!; [lia|exact Hb|exact He|lia| |].
        -- intros [|k'] b' e' Hb' He'; simpl in Hb'.
           ++ injection Hb' as <-. rewrite Ha in He'. injection He' as <-. lia.
           ++ eapply Hmin; eassumption.
        -- intros [|k'] b' e' Hk' Hb' He'; simpl in Hb'.
           ++ injection Hb' as <-. rewrite Ha in He'. injection He' as <-. lia.
           ++ eapply Hfirst; [|eassumption..]. lia.
Qed.

End touch_scan.

Lemma find_lru_spec s :
  protectedList s <> [] ->
  Forall (fun a => is_Some (objects s !! a)) (protectedList s) ->
  exists i, find_lru s = Done (i, s) /\ is_lru (objects s) (protectedList s) i.
Proof.
  intros Hne Hlive. unfold find_lru.
  destruct (protectedList s) as [|a0 l] eqn:El; [congruence|].
  pose proof (Forall_inv Hlive) as [first Hfirst]. rewrite Hfirst.
  destruct (lru_scan_spec (objects s) (a0 :: l) Hlive 0 0 (lastTouch first))
    as (j & -> & [[-> Hmin]|(k & b & e & -> & Hb & He & _ & Hmin & Hstrict)]).
  - exists 0. split; [reflexivity|]. exists a0, first.
    split_and!; [reflexivity|exact Hfirst|exact Hmin|]. intros; lia.
  - exists (0 + k). split; [reflexivity|]. exists b, e.
    split_and!; [exact Hb|exact He|exact Hmin|exact Hstrict].
Qed.

(** ** [SLRU::touch] in closed form, branch by branch *)

Section touch_equations.
Variables (s : SLRU) (rd : addr) (d : SLRUReplData) (now : Tick).
Hypothesis Hrd : objects s !! rd = Some d.

Local Ltac step := cbv beta iota delta [bind get put ret].

Lemma touch_protected_eq :
  segment d = Protected ->
  touch rd now s
  = Done (tt, store rd {| segment := Protected; lastTouch := now |} s).
Proof using Hrd.
  intros Hseg. unfold touch. step. rewrite (deref_eq _ _ _ Hrd). step.
  destruct (decide (segment d = Probation)) as [?|_]; [congruence|].
  rewrite (set_lastTouch_eq _ _ _ now Hrd), Hseg. reflexivity.
Qed.

Lemma touch_promote_eq :
  segment d = Probation ->
  (protectedEntries s < protectedSize s)%Z ->
  touch rd now s
  = Done (tt, with_protected (to_unsigned (protectedEntries s + 1))
                (protectedList s ++ [rd])
                (store rd {| segment := Protected; lastTouch := now |} s)).
Proof using Hrd.
  intros Hseg Hlt. unfold touch. step. rewrite (deref_eq _ _ _ Hrd). step.
  destruct (decide (segment d = Probation)) as [_|?]; [|contradiction].
  destruct (decide (protectedEntries s < protectedSize s)%Z) as [_|?];
    [|contradiction].
  rewrite (set_segment_eq _ _ _ Protected Hrd). step.
  erewrite set_lastTouch_eq.
  2:{ simpl. apply list_lookup_insert_eq. eapply lookup_lt_Some, Hrd. }
  unfold store, with_objects, with_protected. simpl.
  rewrite list_insert_insert_eq. reflexivity.
Qed.

Lemma touch_demote_eq i lru dl :
  segment d = Probation ->
  ~ (protectedEntries s < protectedSize s)%Z ->
  find_lru s = Done (i, s) ->
  protectedList s !! i = Some lru ->
  objects s !! lru = Some dl ->
  touch rd now s
  = Done (tt, with_protected (protectedEntries s)
                (delete i (protectedList s) ++ [rd])
                (store rd {| segment := Protected; lastTouch := now |}
                   (store lru {| segment := Probation;
                                 lastTouch := lastTouch dl |} s))).
Proof using Hrd.
  intros Hseg Hfull Hfind Hi Hlru.
  assert (Hrd1 : is_Some (objects (store lru {| segment := Probation;
                   lastTouch := lastTouch dl |} s) !! rd)).
  { apply lookup_lt_is_Some. simpl. rewrite length_insert.
    eapply lookup_lt_Some, Hrd. }
  destruct Hrd1 as [d1 Hd1].
  unfold touch. step. rewrite (deref_eq _ _ _ Hrd). step.
  destruct (decide (segment d = Probation)) as [_|?]; [|contradiction].
  destruct (decide (protectedEntries s < protectedSize s)%Z) as [?|_];
    [contradiction|].
  rewrite Hfind. step. rewrite Hi. step.
  rewrite (set_segment_eq _ _ _ Probation Hlru). step.
  erewrite set_segment_eq by exact Hd1. step.
  erewrite set_lastTouch_eq.
  2:{ simpl. apply list_lookup_insert_eq. rewrite length_insert.
      eapply lookup_lt_Some, Hrd. }
  unfold store, with_objects, with_protected. simpl.
  rewrite list_insert_insert_eq. reflexivity.
Qed.

End touch_equations.

(** ** The scan of [getVictim] *)

Section victim_scan.
Variable h : list SLRUReplData.

Lemma victim_scan_eq candidates :
  live_in h candidates ->
  forall st,
  victim_scan h candidates st
  = Done {| oldestProb := fst (oldest_of Probation h candidates (oldestProb st) (minProb st));
            oldestProt := fst (oldest_of Protected h candidates (oldestProt st) (minProt st));
            minProb := snd (oldest_of Probation h candidates (oldestProb st) (minProb st));
            minProt := snd (oldest_of Protected h candidates (oldestProt st) (minProt st)) |}.
Proof.
  induction 1 as [|ent rest [data Hd] _ IH]; intros st; simpl.
  - destruct st; reflexivity.
  - rewrite Hd, IH. unfold victim_step.
    destruct (segment data);
      repeat (case_decide; try congruence); simpl; reflexivity.
Qed.

Lemma strict_scan_eq candidates :
  live_in h candidates ->
  forall st,
  strict_scan h candidates st
  = Done {| oldestProb := fst (oldest_of Probation h candidates (oldestProb st) (minProb st));
            oldestProt := oldestProt st;
            minProb := snd (oldest_of Probation h candidates (oldestProb st) (minProb st));
            minProt := minProt st |}.
Proof.
  induction 1 as [|ent rest [data Hd] _ IH]; intros st; simpl.
  - destruct st; reflexivity.
  - rewrite Hd, IH. unfold strict_step.
    destruct (segment data);
      repeat (case_decide; try congruence); simpl; reflexivity.
Qed.

Lemma oldest_of_spec seg candidates :
  live_in h candidates ->
  forall best m,
  (oldest_of seg h candidates best m = (best, m) /\
   forall j e d, candidates !! j = Some e ->
     h !! replacementData e = Some d -> segment d = seg ->
     (m <= lastTouch d)%Z)
  \/
  (exists i e d,
     oldest_of seg h candidates best m = (Some e, lastTouch d) /\
     (lastTouch d < m)%Z /\
     candidates !! i = Some e /\ h !! replacementData e = Some d /\
     segment d = seg /\
     (forall j e' d', candidates !! j = Some e' ->
        h !! replacementData e' = Some d' -> segment d' = seg ->
        (lastTouch d <= lastTouch d')%Z) /\
     (forall j e' d', j < i -> candidates !! j = Some e' ->
        h !! replacementData e' = Some d' -> segment d' = seg ->
        (lastTouch d < lastTouch d')%Z)).
Proof.
  induction 1 as [|ent rest [data Hd] _ IH]; intros best m; simpl.
  - left. split; [reflexivity|]. intros j e d Hj.
    rewrite lookup_nil in Hj. discriminate.
  - rewrite Hd.
    assert (Hhead : forall (P : SLRUReplData -> Prop),
               P data ->
               forall e' d', (ent :: rest) !! 0 = Some e' ->
                 h !! replacementData e' = Some d' -> P d').
    { intros P HP e' d' He' Hd'. simpl in He'. injection He' as <-.
      rewrite Hd in Hd'. injection Hd' as <-. exact HP. }
    destruct (decide (segment data = seg)) as [Hseg|Hseg];
      [destruct (decide (lastTouch data < m)%Z) as [Hlt|Hge]|].
    + destruct (IH (Some ent) (lastTouch data))
        as [[-> Hmin]|(i & e & d & -> & Hlt' & Hi & He & Hs & Hmin & Hfirst)].
      * right. exists 0, ent, data.
        split_and!; [reflexivity|exact Hlt|reflexivity|exact Hd|exact Hseg| |].
        -- intros [|j] e' d' He' Hd' Hs'.
           ++ apply (Hhead (fun x => lastTouch data <= lastTouch x)%Z) with e'; [lia|done..].
           ++ eapply Hmin; eassumption.
        -- intros j e' d' Hj. lia.
      * right. exists (S i), e, d.
        split_and!; [reflexivity|lia|exact Hi|exact He|exact Hs| |].
        -- intros [|j] e' d' He' Hd' Hs'.
           ++ apply (Hhead (fun x => lastTouch d <= lastTouch x)%Z) with e'; [lia|done..].
           ++ eapply Hmin; eassumption.
        -- intros [|j] e' d' Hj He' Hd' Hs'.
           ++ apply (Hhead (fun x => lastTouch d < lastTouch x)%Z) with e'; [lia|done..].
           ++ eapply Hfirst; [|eassumption..]. lia.
    + destruct (IH best m)
        as [[-> Hmin]|(i & e & d & -> & Hlt' & Hi & He & Hs & Hmin & Hfirst)].
      * left. split; [reflexivity|]. intros [|j] e' d' He' Hd' Hs'.
        -- apply (Hhead (fun x => m <= lastTouch x)%Z) with e'; [lia|done..].
        -- eapply Hmin; eassumption.
      * right. exists (S i), e, d.
        split_and!; [reflexivity|lia|exact Hi|exact He|exact Hs| |].
        -- intros [|j] e' d' He' Hd' Hs'.
           ++ apply (Hhead (fun x => lastTouch d <= lastTouch x)%Z) with e'; [lia|done..].
           ++ eapply Hmin; eassumption.
        -- intros [|j] e' d' Hj He' Hd' Hs'.
           ++ apply (Hhead (fun x => lastTouch d < lastTouch x)%Z) with e'; [lia|done..].
           ++ eapply Hfirst; [|eassumption..]. lia.
    + destruct (IH best m)
        as [[-> Hmin]|(i & e & d & -> & Hlt' & Hi & He & Hs & Hmin & Hfirst)].
      * left. split; [reflexivity|]. intros [|j] e' d' He' Hd' Hs'.
        -- exfalso. apply Hseg.
           apply (Hhead (fun x => segment x = seg -> segment data = seg)) with e' d' in He';
             auto.
        -- eapply Hmin; eassumption.
      * right. exists (S i), e, d.
        split_and!; [reflexivity|lia|exact Hi|exact He|exact Hs| |].
        -- intros [|j] e' d' He' Hd' Hs'.
           ++ exfalso. apply Hseg.
              apply (Hhead (fun x => segment x = seg -> segment data = seg)) with e' d' in He';
                auto.
           ++ eapply Hmin; eassumption.
        -- intros [|j] e' d' Hj He' Hd' Hs'.
           ++ exfalso. apply Hseg.
              apply (Hhead (fun x => segment x = seg -> segment data = seg)) with e' d' in He';
                auto.
           ++ eapply Hfirst; [|eassumption..]. lia.
Qed.

(** From the initial variables of the loop: either nothing was kept
    and every candidate of the segment has the largest tick, or the
    oldest candidate of the segment was kept. *)
Lemma oldest_of_init seg candidates :
  live_in h candidates ->
  (fst (oldest_of seg h candidates None MaxTick) = None /\
   forall j e d, candidates !! j = Some e ->
     h !! replacementData e = Some d -> segment d = seg ->
     (MaxTick <= lastTouch d)%Z)
  \/
  (exists i e, fst (oldest_of seg h candidates None MaxTick) = Some e /\
     is_oldest seg h candidates i e /\
     exists d, h !! replacementData e = Some d /\ (lastTouch d < MaxTick)%Z).
Proof.
  intros Hlive.
  destruct (oldest_of_spec seg candidates Hlive None MaxTick)
    as [[-> Hmin]|(i & e & d & -> & Hlt & Hi & He & Hs & Hmin & Hfirst)].
  - left. split; [reflexivity|exact Hmin].
  - right. exists i, e. split; [reflexivity|]. split.
    + exists d. split_and!; assumption.
    + exists d. split; assumption.
Qed.

End victim_scan.

(** ** The two [getVictim] in closed form *)

Section getVictim_equations.
Variables (s : SLRU) (candidates : list ReplaceableEntry) (now : Tick).
Hypothesis Hne : candidates <> [].
Hypothesis Hlive : live s candidates.

Local Ltac step := cbv beta iota delta [bind get put ret].

Lemma getVictim_empty s0 now0 : getVictim [] now0 s0 = AssertFail.
Proof. reflexivity. Qed.

Lemma getVictim_strict_empty s0 : getVictim_strict [] s0 = AssertFail.
Proof. reflexivity. Qed.

Lemma getVictim_eq :
  getVictim candidates now s
  = match fst (oldest_of Probation (objects s) candidates None MaxTick) with
    | Some e => Done (Some e, s)
    | None =>
        match fst (oldest_of Protected (objects s) candidates None MaxTick) with
        | Some e =>
            Done (Some e,
                  erased (replacementData e)
                    (store (replacementData e)
                       {| segment := Probation; lastTouch := now |} s))
        | None => AssertFail
        end
    end.
Proof using Hne Hlive.
  unfold getVictim. step.
  rewrite bool_decide_eq_false_2 by exact Hne. simpl. step.
  unfold lift_scan. rewrite (victim_scan_eq _ _ Hlive). simpl. step.
  destruct (fst (oldest_of Probation _ _ _ _)) as [e|]; [reflexivity|].
  destruct (oldest_of_init (objects s) Protected candidates Hlive)
    as [[-> _]|(i & e & -> & _ & d & Hd & _)].
  - reflexivity.
  - rewrite bool_decide_eq_true_2 by eauto. simpl. step.
    rewrite (set_segment_eq _ _ _ Probation Hd). step.
    rewrite (set_lastTouch_eq _ _ _ now (store_lookup_eq _ _ _ _ Hd)). step.
    rewrite erase_protected_eq. simpl. rewrite store_store. reflexivity.
Qed.

Lemma getVictim_strict_eq :
  getVictim_strict candidates s
  = match fst (oldest_of Probation (objects s) candidates None MaxTick) with
    | Some e => Done (Some e, s)
    | None => AssertFail
    end.
Proof using Hne Hlive.
  unfold getVictim_strict. step.
  rewrite bool_decide_eq_false_2 by exact Hne. simpl. step.
  unfold lift_scan. rewrite (strict_scan_eq _ _ Hlive). simpl. step.
  destruct (fst (oldest_of Probation _ _ _ _)) as [e|]; [|reflexivity].
  rewrite bool_decide_eq_true_2 by eauto. reflexivity.
Qed.

End getVictim_equations.

(** ** The tracker invariant and its preservation *)

Section list_facts.
Context {A : Type}.
Implicit Types (l : list A) (x : A).

Lemma delete_NoDup l i x :
  NoDup l -> l !! i = Some x ->
  NoDup (delete i l) /\ forall a, a ∈ delete i l <-> a ∈ l /\ a <> x.
Proof.
  intros Hnd Hi. rewrite delete_take_drop.
  rewrite <- (take_drop_middle l i x Hi) in Hnd at 1.
  apply NoDup_app in Hnd as (Ht & Hdisj & Hd).
  apply NoDup_cons in Hd as [Hx Hd].
  split.
  - apply NoDup_app. split_and!; [exact Ht| |exact Hd].
    intros a Ha Ha'. apply (Hdisj a Ha). right. exact Ha'.
  - intros a. rewrite <- (take_drop_middle l i x Hi) at 3.
    rewrite !elem_of_app, elem_of_cons. split.
    + intros [Ha|Ha]; (split; [tauto|]); intros ->.
      * apply (Hdisj x Ha). left.
      * contradiction.
    + intros [[Ha|[->|Ha]] Hne]; [tauto|congruence|tauto].
Qed.

End list_facts.

Section invariant.
Implicit Types (s : SLRU) (rd a : addr) (d : SLRUReplData).

(** The invariant as it is used: membership is protection. *)
Lemma Inv_alt s :
  Inv s <->
  protectedEntries s = Z.of_nat (length (protectedList s)) /\
  (protectedEntries s <= protectedSize s)%Z /\
  (protectedSize s < 2 ^ 32)%Z /\
  NoDup (protectedList s) /\
  forall a, a ∈ protectedList s <-> segment_at s a = Some Protected.
Proof.
  unfold Inv. rewrite !Forall_forall. split.
  - intros (Hc & Hcap & Hu & Hnd & Hm & Hp). split_and!; try assumption.
    intros a. split; [apply Hm|]. intros Ha. apply Hp; [|exact Ha].
    apply elem_of_seq. split; [lia|]. simpl.
    unfold segment_at in Ha. destruct (objects s !! a) eqn:E; [|discriminate].
    eapply lookup_lt_Some, E.
  - intros (Hc & Hcap & Hu & Hnd & Hiff). split_and!; try assumption.
    + intros a. apply Hiff.
    + intros a _. apply Hiff.
Qed.

Lemma segment_at_store s rd d d0 a :
  objects s !! rd = Some d0 ->
  segment_at (store rd d s) a
  = if decide (a = rd) then Some (segment d) else segment_at s a.
Proof.
  intros H. unfold segment_at. destruct (decide (a = rd)) as [->|Hne].
  - rewrite (store_lookup_eq _ _ _ _ H). reflexivity.
  - rewrite store_lookup_ne by exact Hne. reflexivity.
Qed.

Lemma segment_at_Some s a d :
  objects s !! a = Some d -> segment_at s a = Some (segment d).
Proof. unfold segment_at. intros ->. reflexivity. Qed.

Lemma Inv_new p : Inv (SLRU_new p).
Proof.
  apply Inv_alt. simpl. unfold to_unsigned.
  pose proof (Z.mod_pos_bound (protected_size p) (2 ^ 32) ltac:(lia)).
  split_and!; [reflexivity|lia|lia|constructor|].
  intros a. split.
  - intros Ha. apply not_elem_of_nil in Ha. contradiction.
  - unfold segment_at. simpl. rewrite ?lookup_nil. discriminate.
Qed.

Lemma Inv_instantiate s :
  Inv s -> Inv (with_objects (objects s ++ [SLRUReplData_new]) s).
Proof.
  rewrite !Inv_alt. intros (Hc & Hcap & Hu & Hnd & Hiff). simpl.
  split_and!; try assumption.
  intros a. rewrite Hiff. unfold segment_at. simpl.
  destruct (objects s !! a) as [d|] eqn:E.
  - rewrite (lookup_app_l_Some _ _ _ _ E). reflexivity.
  - apply lookup_ge_None in E. rewrite lookup_app_r by exact E.
    destruct (a - length (objects s)) as [|n]; simpl; rewrite ?lookup_nil; split; discriminate.
Qed.

(** A write that keeps the segment of the object. *)
Lemma Inv_store_same s rd d d0 :
  Inv s -> objects s !! rd = Some d0 -> segment d = segment d0 ->
  Inv (store rd d s).
Proof.
  rewrite !Inv_alt. intros (Hc & Hcap & Hu & Hnd & Hiff) Hrd Hseg. simpl.
  split_and!; try assumption.
  intros a. rewrite Hiff, (segment_at_store _ _ _ _ _ Hrd).
  destruct (decide (a = rd)) as [->|]; [|reflexivity].
  rewrite (segment_at_Some _ _ _ Hrd), Hseg. reflexivity.
Qed.

(** The promotion of [touch] with spare capacity. *)
Lemma Inv_promote s rd d now :
  Inv s -> objects s !! rd = Some d -> segment d = Probation ->
  (protectedEntries s < protectedSize s)%Z ->
  Inv (with_protected (to_unsigned (protectedEntries s + 1))
         (protectedList s ++ [rd])
         (store rd {| segment := Protected; lastTouch := now |} s)).
Proof.
  rewrite !Inv_alt. intros (Hc & Hcap & Hu & Hnd & Hiff) Hrd Hseg Hlt. simpl.
  assert (Hnot : rd ∉ protectedList s).
  { rewrite Hiff, (segment_at_Some _ _ _ Hrd), Hseg. discriminate. }
  assert (Hw : to_unsigned (protectedEntries s + 1) = (protectedEntries s + 1)%Z).
  { unfold to_unsigned. apply Z.mod_small. lia. }
  rewrite Hw. split_and!; [rewrite length_app; simpl; lia|lia|lia| |].
  - apply NoDup_app. split_and!; [exact Hnd| |apply NoDup_singleton].
    intros x Hx ->%list_elem_of_singleton. contradiction.
  - intros a. rewrite elem_of_app, list_elem_of_singleton, Hiff.
    change (segment_at (with_protected _ _ ?t) a) with (segment_at t a).
    rewrite (segment_at_store _ _ _ _ _ Hrd).
    destruct (decide (a = rd)) as [->|Hne]; simpl; [tauto|].
    split; [intros [H|H]; [exact H|contradiction]|tauto].
Qed.

(** The replacement of [touch] when the protected segment is full. *)
Lemma Inv_replace s rd d i lru dl now :
  Inv s -> objects s !! rd = Some d -> segment d = Probation ->
  protectedList s !! i = Some lru -> objects s !! lru = Some dl ->
  Inv (with_protected (protectedEntries s)
         (delete i (protectedList s) ++ [rd])
         (store rd {| segment := Protected; lastTouch := now |}
            (store lru {| segment := Probation; lastTouch := lastTouch dl |} s))).
Proof.
  rewrite !Inv_alt. intros (Hc & Hcap & Hu & Hnd & Hiff) Hrd Hseg Hi Hlru.
  assert (Hnot : rd ∉ protectedList s).
  { rewrite Hiff, (segment_at_Some _ _ _ Hrd), Hseg. discriminate. }
  assert (Hin : lru ∈ protectedList s) by (eapply list_elem_of_lookup_2, Hi).
  assert (Hne : lru <> rd) by (intros ->; contradiction).
  destruct (delete_NoDup _ _ _ Hnd Hi) as [Hnd' Hdel].
  assert (Hrd' : objects (store lru {| segment := Probation;
                   lastTouch := lastTouch dl |} s) !! rd = Some d).
  { rewrite store_lookup_ne by congruence. exact Hrd. }
  simpl. split_and!.
  - rewrite length_app, length_delete by eauto. simpl.
    pose proof (lookup_lt_Some _ _ _ Hi). lia.
  - exact Hcap.
  - exact Hu.
  - apply NoDup_app. split_and!; [exact Hnd'| |apply NoDup_singleton].
    intros x Hx ->%list_elem_of_singleton. apply Hdel in Hx as [Hx _].
    contradiction.
  - intros a. rewrite elem_of_app, list_elem_of_singleton, Hdel, Hiff.
    change (segment_at (with_protected _ _ ?t) a) with (segment_at t a).
    rewrite (segment_at_store _ _ _ _ _ Hrd'), (segment_at_store _ _ _ _ _ Hlru).
    destruct (decide (a = rd)) as [->|Hne1]; simpl; [tauto|].
    destruct (decide (a = lru)) as [->|Hne2]; simpl.
    + split; [intros [[_ H]|H]; congruence|discriminate].
    + tauto.
Qed.

End invariant.

Section erase.
Implicit Types (s : SLRU) (rd a : addr) (d : SLRUReplData).

Lemma erased_found s rd :
  rd ∈ protectedList s ->
  exists i, protectedList s !! i = Some rd /\
    (forall j, j < i -> protectedList s !! j <> Some rd) /\
    erased rd s
    = with_protected (to_unsigned (protectedEntries s - 1))
        (delete i (protectedList s)) s.
Proof.
  intros Hin. unfold erased.
  destruct (list_find_elem_of (fun a => a = rd) _ rd Hin eq_refl) as [[i x] Hf].
  rewrite Hf. apply list_find_Some in Hf as (Hi & -> & Hleast).
  exists i. split_and!; [exact Hi| |reflexivity].
  intros j Hj Hj'. exact (Hleast j rd Hj' Hj eq_refl).
Qed.

Lemma erased_absent s rd : rd ∉ protectedList s -> erased rd s = s.
Proof.
  intros Hnot. unfold erased.
  destruct (list_find _ _) as [[i x]|] eqn:Hf; [|reflexivity].
  apply list_find_Some in Hf as (Hi & -> & _).
  destruct Hnot. eapply list_elem_of_lookup_2, Hi.
Qed.

(** What [invalidate], [reset] and the fallback of [getVictim] do to a
    live object keeps the invariant. *)
Lemma Inv_clear s rd d t :
  Inv s -> objects s !! rd = Some d ->
  Inv (store rd {| segment := Probation; lastTouch := t |}
         (if decide (segment d = Protected) then erased rd s else s)).
Proof.
  intros HI Hrd. destruct (decide (segment d = Protected)) as [Hp|Hp].
  - revert HI. rewrite !Inv_alt. intros (Hc & Hcap & Hu & Hnd & Hiff).
    assert (Hin : rd ∈ protectedList s).
    { rewrite Hiff, (segment_at_Some _ _ _ Hrd), Hp. reflexivity. }
    destruct (erased_found _ _ Hin) as (i & Hi & _ & ->).
    destruct (delete_NoDup _ _ _ Hnd Hi) as [Hnd' Hdel].
    pose proof (lookup_lt_Some _ _ _ Hi) as Hlen.
    assert (Hw : to_unsigned (protectedEntries s - 1) = (protectedEntries s - 1)%Z).
    { unfold to_unsigned. apply Z.mod_small. lia. }
    simpl. rewrite Hw.
    split_and!; [rewrite length_delete by eauto; lia|lia|exact Hu|exact Hnd'|].
    intros a. rewrite Hdel, Hiff.
    change (segment_at (store ?r ?x (with_protected _ _ ?t)) a)
      with (segment_at (store r x t) a).
    rewrite (segment_at_store _ _ _ _ _ Hrd).
    destruct (decide (a = rd)) as [->|Hne]; simpl; [|tauto].
    split; [tauto|discriminate].
  - apply Inv_store_same with (d0 := d); [exact HI|exact Hrd|].
    simpl. destruct (segment d); congruence.
Qed.

End erase.

(** ** Every entry point keeps the invariant *)

Section preservation.
Implicit Types (s : SLRU) (rd a : addr) (d : SLRUReplData).

Local Ltac step := cbv beta iota delta [bind get put ret].

Lemma Inv_members_live s :
  Inv s -> Forall (fun a => is_Some (objects s !! a)) (protectedList s).
Proof.
  intros (_ & _ & _ & _ & Hm & _). eapply Forall_impl; [exact Hm|].
  intros a Ha. simpl in Ha. unfold segment_at in Ha.
  destruct (objects s !! a); [eauto|discriminate].
Qed.

Lemma deref_None s rd : objects s !! rd = None -> deref rd s = Undefined.
Proof. unfold deref. intros ->. reflexivity. Qed.

Lemma touch_dangling s rd now :
  objects s !! rd = None -> touch rd now s = Undefined.
Proof. intros H. unfold touch. step. rewrite (deref_None _ _ H). reflexivity. Qed.

Lemma reset_dangling s rd now :
  objects s !! rd = None -> reset rd now s = Undefined.
Proof. intros H. unfold reset. step. rewrite (deref_None _ _ H). reflexivity. Qed.

Lemma invalidate_dangling s rd :
  objects s !! rd = None -> invalidate rd s = Undefined.
Proof. intros H. unfold invalidate. step. rewrite (deref_None _ _ H). reflexivity. Qed.

(** With no protected entry to demote, the full branch of [touch]
    reads [*protectedList.begin()] of an empty vector. *)
Lemma touch_full_empty s rd d now :
  objects s !! rd = Some d -> segment d = Probation ->
  ~ (protectedEntries s < protectedSize s)%Z ->
  protectedList s = [] ->
  touch rd now s = Undefined.
Proof.
  intros Hrd Hseg Hfull Hnil. unfold touch. step. rewrite (deref_eq _ _ _ Hrd). step.
  destruct (decide (segment d = Probation)) as [_|?]; [|contradiction].
  destruct (decide (protectedEntries s < protectedSize s)%Z) as [?|_];
    [contradiction|].
  unfold find_lru. rewrite Hnil. reflexivity.
Qed.

Lemma touch_cases s rd d now :
  Inv s -> objects s !! rd = Some d ->
  (touch rd now s = Undefined /\ protectedList s = [] /\
   segment d = Probation /\ ~ (protectedEntries s < protectedSize s)%Z)
  \/ (exists s', touch rd now s = Done (tt, s') /\ Inv s').
Proof.
  intros HI Hrd. destruct (segment d) eqn:Hseg.
  - destruct (decide (protectedEntries s < protectedSize s)%Z) as [Hlt|Hfull].
    + right. eexists. split; [apply (touch_promote_eq _ _ _ now Hrd Hseg Hlt)|].
      eapply Inv_promote; eassumption.
    + destruct (protectedList s) as [|a0 l] eqn:El.
      * left. split_and!; [|reflexivity..|exact Hfull].
        eapply touch_full_empty; eassumption.
      * right.
        destruct (find_lru_spec s) as (i & Hfind & lru & dl & Hi & Hlru & _).
        { rewrite El. discriminate. }
        { apply Inv_members_live, HI. }
        rewrite El in Hi. eexists. split.
        -- eapply touch_demote_eq; try eassumption. rewrite El. exact Hi.
        -- rewrite <- El in *. eapply Inv_replace; eassumption.
  - right. eexists. split; [apply (touch_protected_eq _ _ _ now Hrd Hseg)|].
    eapply Inv_store_same; [exact HI|exact Hrd|]. simpl. congruence.
Qed.

Lemma touch_Inv s rd now s' :
  Inv s -> touch rd now s = Done (tt, s') -> Inv s'.
Proof.
  intros HI Hrun. destruct (objects s !! rd) as [d|] eqn:Hrd.
  - destruct (touch_cases s rd d now HI Hrd) as [[Hu _]|(s1 & Hd & HI1)];
      congruence.
  - rewrite (touch_dangling _ _ _ Hrd) in Hrun. discriminate.
Qed.

(** A positive capacity is all [touch] needs to complete. *)
Lemma touch_total s rd d now :
  Inv s -> (0 < protectedSize s)%Z -> objects s !! rd = Some d ->
  exists s', touch rd now s = Done (tt, s') /\ Inv s'.
Proof.
  intros HI Hpos Hrd.
  destruct (touch_cases s rd d now HI Hrd) as [(_ & Hnil & _ & Hfull)|H];
    [|exact H].
  destruct HI as (Hc & _). rewrite Hnil in Hc. simpl in Hc. lia.
Qed.

Lemma reset_Inv s rd now s' :
  Inv s -> reset rd now s = Done (tt, s') -> Inv s'.
Proof.
  intros HI Hrun. destruct (objects s !! rd) as [d|] eqn:Hrd.
  - rewrite (reset_eq _ _ _ now Hrd) in Hrun. injection Hrun as <-.
    apply Inv_clear; assumption.
  - rewrite (reset_dangling _ _ _ Hrd) in Hrun. discriminate.
Qed.

Lemma invalidate_Inv s rd s' :
  Inv s -> invalidate rd s = Done (tt, s') -> Inv s'.
Proof.
  intros HI Hrun. destruct (objects s !! rd) as [d|] eqn:Hrd.
  - rewrite (invalidate_eq _ _ _ Hrd) in Hrun. injection Hrun as <-.
    apply Inv_clear; assumption.
  - rewrite (invalidate_dangling _ _ Hrd) in Hrun. discriminate.
Qed.

Lemma victim_scan_Done h candidates st st' :
  victim_scan h candidates st = Done st' ->
  Forall (fun e => is_Some (h !! replacementData e)) candidates.
Proof.
  revert st. induction candidates as [|ent rest IH]; intros st; simpl.
  - constructor.
  - destruct (h !! replacementData ent) as [data|] eqn:E; [|discriminate].
    intros H. constructor; [eauto|]. eapply IH, H.
Qed.

Lemma strict_scan_Done h candidates st st' :
  strict_scan h candidates st = Done st' ->
  Forall (fun e => is_Some (h !! replacementData e)) candidates.
Proof.
  revert st. induction candidates as [|ent rest IH]; intros st; simpl.
  - constructor.
  - destruct (h !! replacementData ent) as [data|] eqn:E; [|discriminate].
    intros H. constructor; [eauto|]. eapply IH, H.
Qed.

(** A call of [getVictim] that returns was given a non-empty vector of
    entries with live data. *)
Lemma getVictimV_Done v candidates now s r s' :
  getVictimV v candidates now s = Done (r, s') ->
  candidates <> [] /\ live s candidates.
Proof.
  intros Hrun. split.
  - intros ->. destruct v; discriminate.
  - destruct candidates as [|e0 rest]; [constructor|].
    destruct v; simpl in Hrun.
    + unfold getVictim in Hrun. revert Hrun. step.
      rewrite bool_decide_eq_false_2 by discriminate.
      cbv beta iota delta [negb assert ret]. unfold lift_scan.
      destruct (victim_scan (objects s) (e0 :: rest) scan_init) eqn:E;
        [|discriminate..].
      intros _. eapply victim_scan_Done, E.
    + unfold getVictim_strict in Hrun. revert Hrun. step.
      rewrite bool_decide_eq_false_2 by discriminate.
      cbv beta iota delta [negb assert ret]. unfold lift_scan.
      destruct (strict_scan (objects s) (e0 :: rest) scan_init) eqn:E;
        [|discriminate..].
      intros _. eapply strict_scan_Done, E.
Qed.

Lemma getVictimV_Inv v candidates now s r s' :
  Inv s -> getVictimV v candidates now s = Done (r, s') -> Inv s'.
Proof.
  intros HI Hrun.
  destruct (getVictimV_Done _ _ _ _ _ _ Hrun) as [Hne Hlive].
  destruct v; simpl in Hrun.
  - rewrite (getVictim_eq _ _ now Hne Hlive) in Hrun.
    destruct (fst (oldest_of Probation _ _ _ _)) as [e|].
    { injection Hrun as _ <-. exact HI. }
    destruct (oldest_of_init (objects s) Protected candidates Hlive)
      as [[Hnone _]|(i & e & Hsome & (d & _ & Hd & Hseg & _) & _)].
    + rewrite Hnone in Hrun. discriminate.
    + rewrite Hsome in Hrun. injection Hrun as _ <-.
      rewrite <- store_erased.
      pose proof (Inv_clear s (replacementData e) d now HI Hd) as H.
      destruct (decide (segment d = Protected)); [exact H|contradiction].
  - rewrite (getVictim_strict_eq _ _ Hne Hlive) in Hrun.
    destruct (fst (oldest_of Probation _ _ _ _)) as [e|]; [|discriminate].
    injection Hrun as _ <-. exact HI.
Qed.

Lemma exec_Inv v c s r s' : Inv s -> exec v c s = Done (r, s') -> Inv s'.
Proof.
  intros HI Hrun. destruct c as [|rd now|rd now|rd|candidates now]; simpl in Hrun.
  - injection Hrun as _ <-. apply Inv_instantiate, HI.
  - apply bind_Done in Hrun as ([] & s1 & H1 & H2). injection H2 as _ <-.
    eapply touch_Inv; eassumption.
  - apply bind_Done in Hrun as ([] & s1 & H1 & H2). injection H2 as _ <-.
    eapply reset_Inv; eassumption.
  - apply bind_Done in Hrun as ([] & s1 & H1 & H2). injection H2 as _ <-.
    eapply invalidate_Inv; eassumption.
  - apply bind_Done in Hrun as (e & s1 & H1 & H2). injection H2 as _ <-.
    eapply getVictimV_Inv; eassumption.
Qed.

Lemma run_Inv v cs : forall s rs s', Inv s -> run v cs s = Done (rs, s') -> Inv s'.
Proof.
  induction cs as [|c cs IH]; intros s rs s' HI Hrun; simpl in Hrun.
  - injection Hrun as _ <-. exact HI.
  - apply bind_Done in Hrun as (r & s1 & H1 & H2).
    apply bind_Done in H2 as (rs' & s2 & H2 & H3). injection H3 as _ <-.
    eapply IH; [|exact H2]. eapply exec_Inv; eassumption.
Qed.

End preservation.

(** ** The embedding on two small runs *)

(** Capacity 1: entry 0 is promoted by its first [touch]; the first
    [touch] of entry 1 finds the segment full, demotes entry 0 (its tick
    stays 2) and promotes entry 1. *)
Example demotion_on_full :
  run Fallback
    [CallInstantiate; CallInstantiate;
     CallTouch 0 1%Z; CallTouch 0 2%Z; CallTouch 1 3%Z; CallTouch 1 4%Z]
    (SLRU_new (mkParams 1 1))
  = Done ([RetData 0; RetData 1; RetVoid; RetVoid; RetVoid; RetVoid],
          {| protectedSize := 1%Z; probationSize := 1%Z;
             protectedEntries := 1%Z; protectedList := [1];
             objects := [ {| segment := Probation; lastTouch := 2%Z |};
                          {| segment := Protected; lastTouch := 4%Z |} ] |}).
Proof. vm_compute. reflexivity. Qed.

(** Capacity 2, entries 0 to 3: after touching 0, 0, 1, 1 the first two
    are protected; touching 2 demotes entry 0, the least recently touched
    of the two; both copies of [getVictim] on entries 0 and 3 return
    entry 3, the probationary entry with the smaller tick. *)
Example scenario v :
  run v
    [CallInstantiate; CallInstantiate; CallInstantiate; CallInstantiate;
     CallTouch 0 1%Z; CallTouch 0 2%Z; CallTouch 1 3%Z; CallTouch 1 4%Z;
     CallTouch 2 5%Z; CallTouch 2 6%Z;
     CallGetVictim [mkEntry 0 0; mkEntry 3 3] 7%Z]
    (SLRU_new (mkParams 2 2))
  = Done ([RetData 0; RetData 1; RetData 2; RetData 3;
           RetVoid; RetVoid; RetVoid; RetVoid; RetVoid; RetVoid;
           RetVictim (Some (mkEntry 3 3))],
          {| protectedSize := 2%Z; probationSize := 2%Z;
             protectedEntries := 2%Z; protectedList := [1; 2];
             objects := [ {| segment := Probation; lastTouch := 2%Z |};
                          {| segment := Protected; lastTouch := 4%Z |};
                          {| segment := Protected; lastTouch := 6%Z |};
                          {| segment := Probation; lastTouch := 0%Z |} ] |}).
Proof. destruct v; vm_compute; reflexivity. Qed.

(** * The claims *)

(** ** C1: the tracker invariant *)

(** C1. Starting from a freshly constructed policy ([protectedEntries = 0],
    empty [protectedList]), after every sequence of [instantiateEntry],
    [touch], [reset], [invalidate] and [getVictim] calls that returns (with
    either copy of [getVictim]): [protectedEntries] is the number of
    elements of [protectedList], it is at most [protectedSize], and for
    every entry of the policy, its segment is [Protected] if and only if it
    is in [protectedList], where it then occupies exactly one position. *)
Theorem C1_tracker_invariant v p cs rs s :
  run v cs (SLRU_new p) = Done (rs, s) ->
  protectedEntries s = Z.of_nat (length (protectedList s)) /\
  (protectedEntries s <= protectedSize s)%Z /\
  forall a d, objects s !! a = Some d ->
    (segment d = Protected <-> a ∈ protectedList s) /\
    (segment d = Protected ->
       exists i, protectedList s !! i = Some a /\
         forall j, protectedList s !! j = Some a -> j = i).
Proof.
  intros Hrun.
  pose proof (run_Inv v cs _ _ _ (Inv_new p) Hrun) as HI.
  apply Inv_alt in HI as (Hc & Hcap & _ & Hnd & Hiff).
  split_and!; [exact Hc|exact Hcap|].
  intros a d Ha.
  assert (Hmem : segment d = Protected <-> a ∈ protectedList s).
  { rewrite Hiff, (segment_at_Some _ _ _ Ha). split; congruence. }
  split; [exact Hmem|].
  intros Hp. apply Hmem in Hp. apply list_elem_of_lookup_1 in Hp as [i Hi].
  exists i. split; [exact Hi|].
  intros j Hj. eapply NoDup_lookup; eassumption.
Qed.

Lemma C1_tracker_invariant_witness :
  let s := {| protectedSize := 1%Z; probationSize := 2%Z;
              protectedEntries := 1%Z; protectedList := [1];
              objects := [ {| segment := Probation; lastTouch := 3%Z |};
                           {| segment := Protected; lastTouch := 4%Z |} ] |} in
  protectedEntries s = Z.of_nat (length (protectedList s)) /\
  (protectedEntries s <= protectedSize s)%Z /\
  forall a d, objects s !! a = Some d ->
    (segment d = Protected <-> a ∈ protectedList s) /\
    (segment d = Protected ->
       exists i, protectedList s !! i = Some a /\
         forall j, protectedList s !! j = Some a -> j = i).
Proof.
  apply (C1_tracker_invariant Fallback (mkParams 1 2)
           [CallInstantiate; CallInstantiate; CallTouch 0 3%Z; CallTouch 1 4%Z]
           [RetData 0; RetData 1; RetVoid; RetVoid]).
  vm_compute. reflexivity.
Defined.

(** ** C2: the promotion threshold *)

(** C2, as stated, fails: the first [touch] of a freshly instantiated
    entry, with spare protected capacity, already makes it [Protected]. *)
Lemma C2_counterexample :
  exists s1,
    (instantiateEntry ;; touch 0 1%Z) (SLRU_new (mkParams 2 2)) = Done (tt, s1) /\
    segment_at s1 0 = Some Protected /\
    segment_at s1 0 <> Some Probation.
Proof.
  eexists. split_and!; [vm_compute; reflexivity|reflexivity|discriminate].
Qed.

(** C2, amended. For a freshly instantiated entry ([Probation], tick 0)
    under a policy with spare protected capacity, one [touch] makes its
    segment [Protected], and a second [touch] leaves it [Protected]; each
    sets its tick to the time of the call. *)
Theorem C2_first_touch_promotes s now1 now2 :
  (protectedEntries s < protectedSize s)%Z ->
  exists a s0 s1 s2,
    instantiateEntry s = Done (a, s0) /\
    objects s0 !! a = Some SLRUReplData_new /\
    touch a now1 s0 = Done (tt, s1) /\
    objects s1 !! a = Some {| segment := Protected; lastTouch := now1 |} /\
    touch a now2 s1 = Done (tt, s2) /\
    objects s2 !! a = Some {| segment := Protected; lastTouch := now2 |}.
Proof.
  intros Hlt.
  set (a := length (objects s)).
  set (s0 := with_objects (objects s ++ [SLRUReplData_new]) s).
  assert (Ha : objects s0 !! a = Some SLRUReplData_new).
  { simpl. unfold a. rewrite lookup_app_r by lia.
    rewrite Nat.sub_diag. reflexivity. }
  pose proof (touch_promote_eq s0 a _ now1 Ha eq_refl Hlt) as H1.
  set (s1 := with_protected _ _ _) in H1.
  assert (Ha1 : objects s1 !! a = Some {| segment := Protected; lastTouch := now1 |}).
  { unfold s1. simpl. apply list_lookup_insert_eq.
    rewrite length_app. simpl. unfold a. lia. }
  pose proof (touch_protected_eq s1 a _ now2 Ha1 eq_refl) as H2.
  exists a, s0, s1, (store a {| segment := Protected; lastTouch := now2 |} s1).
  split_and!; [reflexivity|exact Ha|exact H1|exact Ha1|exact H2|].
  apply store_lookup_eq with (d0 := {| segment := Protected; lastTouch := now1 |}).
  exact Ha1.
Qed.

Lemma C2_first_touch_promotes_witness :
  exists a s0 s1 s2,
    instantiateEntry (SLRU_new (mkParams 2 2)) = Done (a, s0) /\
    objects s0 !! a = Some SLRUReplData_new /\
    touch a 7%Z s0 = Done (tt, s1) /\
    objects s1 !! a = Some {| segment := Protected; lastTouch := 7%Z |} /\
    touch a 9%Z s1 = Done (tt, s2) /\
    objects s2 !! a = Some {| segment := Protected; lastTouch := 9%Z |}.
Proof.
  apply (C2_first_touch_promotes (SLRU_new (mkParams 2 2)) 7%Z 9%Z).
  vm_compute. reflexivity.
Defined.

(** ** [getVictim] away from the largest tick

    The loop starts [minProb] and [minProt] at
    [std::numeric_limits<Tick>::max()] and compares with [<]: a candidate
    whose tick is the largest one is never kept. The lemmas of this section
    describe the two copies of [getVictim] on candidates with some tick
    below [MaxTick]. *)

Section getVictim_rules.
Variables (s : SLRU) (candidates : list ReplaceableEntry) (now : Tick).
Hypothesis Hlive : live s candidates.

Lemma selectable_nonempty seg : selectable s candidates seg -> candidates <> [].
Proof.
  intros (j & e & d & Hj & _) Hnil. rewrite Hnil, lookup_nil in Hj. discriminate.
Qed.

(** The primary rule: both copies return the first oldest probationary
    candidate, and the state is unchanged. *)
Lemma getVictim_primary_rule :
  selectable s candidates Probation ->
  exists i e,
    is_oldest Probation (objects s) candidates i e /\
    getVictim candidates now s = Done (Some e, s) /\
    getVictim_strict candidates s = Done (Some e, s).
Proof using Hlive.
  intros Hsel. pose proof (selectable_nonempty _ Hsel) as Hne.
  rewrite (getVictim_eq _ _ now Hne Hlive), (getVictim_strict_eq _ _ Hne Hlive).
  destruct (oldest_of_init (objects s) Probation candidates Hlive)
    as [[_ Hmin]|(i & e & -> & Hold & _)].
  - destruct Hsel as (j & e & d & Hj & Hd & Hseg & Hlt).
    specialize (Hmin j e d Hj Hd Hseg). lia.
  - exists i, e. split_and!; [exact Hold|reflexivity..].
Qed.

(** The fallback rule: with protected candidates only, the copy with the
    fallback returns the first oldest one after demoting it; the strict
    copy fails its assertion. *)
Lemma getVictim_fallback_rule :
  Inv s ->
  (forall j e d, candidates !! j = Some e ->
     objects s !! replacementData e = Some d -> segment d = Protected) ->
  selectable s candidates Protected ->
  exists i e s',
    is_oldest Protected (objects s) candidates i e /\
    getVictim candidates now s = Done (Some e, s') /\
    (objects s' !! replacementData e
     = Some {| segment := Probation; lastTouch := now |}) /\
    (replacementData e ∉ protectedList s') /\
    protectedEntries s' = (protectedEntries s - 1)%Z /\
    Inv s' /\
    getVictim_strict candidates s = AssertFail.
Proof using Hlive.
  intros HI Hall Hsel. pose proof (selectable_nonempty _ Hsel) as Hne.
  assert (Hnoprob : fst (oldest_of Probation (objects s) candidates None MaxTick) = None).
  { destruct (oldest_of_init (objects s) Probation candidates Hlive)
      as [[H _]|(i & e & _ & (d & Hi & Hd & Hseg & _) & _)]; [exact H|].
    specialize (Hall i e d Hi Hd). congruence. }
  destruct (oldest_of_init (objects s) Protected candidates Hlive)
    as [[_ Hmin]|(i & e & Hsome & Hold & _)].
  { destruct Hsel as (j & e & d & Hj & Hd & Hseg & Hlt).
    specialize (Hmin j e d Hj Hd Hseg). lia. }
  pose proof Hold as (d & Hi & Hd & Hseg & _).
  pose proof (Inv_clear s (replacementData e) d now HI Hd) as HI'.
  destruct (decide (segment d = Protected)) as [_|?]; [|contradiction].
  rewrite store_erased in HI'.
  exists i, e, (erased (replacementData e)
                  (store (replacementData e)
                     {| segment := Probation; lastTouch := now |} s)).
  split_and!.
  - exact Hold.
  - rewrite (getVictim_eq _ _ now Hne Hlive), Hnoprob, Hsome. reflexivity.
  - rewrite objects_erased. eapply store_lookup_eq, Hd.
  - apply Inv_alt in HI' as (_ & _ & _ & _ & Hiff). rewrite Hiff.
    unfold segment_at. rewrite objects_erased, (store_lookup_eq _ _ _ _ Hd).
    discriminate.
  - apply Inv_alt in HI as (Hc & Hcap & Hu & _ & Hiff).
    assert (Hin : replacementData e ∈ protectedList s).
    { rewrite Hiff, (segment_at_Some _ _ _ Hd), Hseg. reflexivity. }
    rewrite <- store_erased.
    destruct (erased_found _ _ Hin) as (k & Hk & _ & ->). simpl.
    pose proof (lookup_lt_Some _ _ _ Hk).
    unfold to_unsigned. apply Z.mod_small. lia.
  - exact HI'.
  - rewrite (getVictim_strict_eq _ _ Hne Hlive), Hnoprob. reflexivity.
Qed.

(** When every candidate has a tick below [MaxTick], the assertions fail
    exactly as the contract says. *)
Lemma getVictim_aborts_iff :
  (forall j e d, candidates !! j = Some e ->
     objects s !! replacementData e = Some d -> (lastTouch d < MaxTick)%Z) ->
  (getVictim candidates now s = AssertFail <-> candidates = []) /\
  (getVictim_strict candidates s = AssertFail <->
     candidates = [] \/
     forall j e d, candidates !! j = Some e ->
       objects s !! replacementData e = Some d -> segment d <> Probation).
Proof using Hlive.
  intros Hticks.
  destruct candidates as [|e0 rest] eqn:Ec.
  { split; (split; [intros _|intros _; reflexivity]); auto. }
  rewrite <- Ec in *. assert (Hne : candidates <> []) by (rewrite Ec; discriminate).
  rewrite (getVictim_eq _ _ now Hne Hlive), (getVictim_strict_eq _ _ Hne Hlive).
  assert (Hsel : forall seg,
            fst (oldest_of seg (objects s) candidates None MaxTick) = None ->
            forall j e d, candidates !! j = Some e ->
              objects s !! replacementData e = Some d -> segment d <> seg).
  { intros seg Hnone j e d Hj Hd Hseg.
    destruct (oldest_of_init (objects s) seg candidates Hlive)
      as [[_ Hmin]|(i & e' & Hsome & _)]; [|congruence].
    specialize (Hmin j e d Hj Hd Hseg). specialize (Hticks j e d Hj Hd). lia. }
  split; split.
  - intros Habort. exfalso.
    destruct (fst (oldest_of Probation _ _ _ _)) eqn:E1; [discriminate|].
    destruct (fst (oldest_of Protected _ _ _ _)) eqn:E2; [discriminate|].
    pose proof (Forall_lookup_1 _ _ 0 e0 Hlive) as [d0 Hd0].
    { rewrite Ec. reflexivity. }
    assert (H0 : candidates !! 0 = Some e0) by (rewrite Ec; reflexivity).
    pose proof (Hsel Probation E1 0 e0 d0 H0 Hd0).
    pose proof (Hsel Protected E2 0 e0 d0 H0 Hd0).
    destruct (segment d0); congruence.
  - intros ?. contradiction.
  - intros Habort. right.
    destruct (fst (oldest_of Probation _ _ _ _)) eqn:E1; [discriminate|].
    apply Hsel, E1.
  - intros [?|Hnone]; [contradiction|].
    destruct (oldest_of_init (objects s) Probation candidates Hlive)
      as [[-> _]|(i & e & _ & (d & Hi & Hd & Hseg & _) & _)]; [reflexivity|].
    destruct (Hnone i e d Hi Hd Hseg).
Qed.

End getVictim_rules.

(** ** C3, C4, C6, C7: [getVictim] at the largest tick

    The clock may show [MaxTick]; an entry reset or touched then carries
    it. The states below are reached by calls of the entry points with a
    non-decreasing clock. *)

Lemma late_probation_reached v :
  run v [CallInstantiate; CallInstantiate; CallTouch 1 5%Z; CallReset 0 MaxTick]
        (SLRU_new (mkParams 4 4))
  = Done ([RetData 0; RetData 1; RetVoid; RetVoid], late_probation).
Proof. destruct v; vm_compute; reflexivity. Qed.

Lemma late_protected_reached v :
  run v [CallInstantiate; CallTouch 0 MaxTick] (SLRU_new (mkParams 4 4))
  = Done ([RetData 0; RetVoid], late_protected).
Proof. destruct v; vm_compute; reflexivity. Qed.

(** C3, at the failing input. Victim preference says that a candidate list
    with a probationary entry yields a probationary victim. On the
    candidates [entry 0; entry 1] of [late_probation], where entry 0 is
    probationary with tick [MaxTick], [getVictim] of [slru_rp.cc] returns
    entry 1, which is protected, and demotes it. *)
Theorem C3_probation_at_MaxTick_is_skipped :
  segment_at late_probation 0 = Some Probation /\
  segment_at late_probation 1 = Some Protected /\
  getVictim [mkEntry 0 0; mkEntry 1 1] MaxTick late_probation
  = Done (Some (mkEntry 1 1),
          {| protectedSize := 4%Z; probationSize := 4%Z;
             protectedEntries := 0%Z; protectedList := [];
             objects := [ {| segment := Probation; lastTouch := MaxTick |};
                          {| segment := Probation; lastTouch := MaxTick |} ] |}).
Proof. split_and!; vm_compute; reflexivity. Qed.

(** C4, at the failing input. The fallback rule says that a non-empty
    candidate list of protected entries yields its oldest entry, demoted.
    On the single protected candidate of [late_protected], whose tick is
    [MaxTick], [getVictim] of [slru_rp.cc] fails [assert(oldestProt)]. *)
Theorem C4_protected_at_MaxTick_aborts :
  Inv late_protected /\
  segment_at late_protected 0 = Some Protected /\
  getVictim [mkEntry 0 0] MaxTick late_protected = AssertFail.
Proof.
  split_and!; [|reflexivity|vm_compute; reflexivity].
  apply (bool_decide_unpack _). vm_compute. reflexivity.
Qed.

(** C6, at the failing input. The two copies are said to agree on every
    candidate list with a probationary entry. On the candidates
    [entry 0; entry 1] of [late_probation] the strict copy fails its
    assertion while the copy with the fallback returns entry 1 and changes
    the state. *)
Theorem C6_variants_disagree_at_MaxTick :
  segment_at late_probation 0 = Some Probation /\
  getVictim_strict [mkEntry 0 0; mkEntry 1 1] late_probation = AssertFail /\
  exists s',
    getVictim [mkEntry 0 0; mkEntry 1 1] MaxTick late_probation
    = Done (Some (mkEntry 1 1), s') /\
    s' <> late_probation.
Proof.
  split_and!; [reflexivity|vm_compute; reflexivity|].
  eexists. split; [vm_compute; reflexivity|]. discriminate.
Qed.

(** C7, at the failing input. The assertions are said to fail only on an
    empty candidate list or, in the strict copy, on one with no
    probationary entry. On the single candidate entry 0 of
    [late_probation], which is probationary, both copies fail an
    assertion. *)
Theorem C7_assertion_fails_at_MaxTick :
  segment_at late_probation 0 = Some Probation /\
  getVictim_strict [mkEntry 0 0] late_probation = AssertFail /\
  getVictim [mkEntry 0 0] MaxTick late_probation = AssertFail.
Proof. split_and!; vm_compute; reflexivity. Qed.

(** ** C5: demotion when the protected segment is full *)

(** C5. In a state of the tracker invariant with a positive capacity, when
    [touch] is called on a [Probation] entry while
    [protectedEntries = protectedSize]: the member of [protectedList] with
    the smallest tick (the first such member) gets segment [Probation] and
    leaves [protectedList], its tick unchanged; the touched entry gets
    segment [Protected], joins [protectedList] (at the back) and gets the
    current tick; [protectedEntries] is unchanged. *)
Theorem C5_touch_demotes_lru_when_full s rd d now :
  Inv s -> (0 < protectedSize s)%Z ->
  objects s !! rd = Some d -> segment d = Probation ->
  protectedEntries s = protectedSize s ->
  exists i lru dl s',
    is_lru (objects s) (protectedList s) i /\
    protectedList s !! i = Some lru /\ objects s !! lru = Some dl /\
    touch rd now s = Done (tt, s') /\
    objects s' !! lru
    = Some {| segment := Probation; lastTouch := lastTouch dl |} /\
    (lru ∉ protectedList s') /\
    objects s' !! rd = Some {| segment := Protected; lastTouch := now |} /\
    protectedList s' = delete i (protectedList s) ++ [rd] /\
    rd ∈ protectedList s' /\
    protectedEntries s' = protectedEntries s.
Proof.
  intros HI Hpos Hrd Hseg Hfull.
  pose proof HI as (Hc & Hcap & Hu & Hnd & Hiff)%Inv_alt.
  assert (Hne : protectedList s <> []).
  { intros Hnil. rewrite Hnil in Hc. simpl in Hc. lia. }
  destruct (find_lru_spec s Hne (Inv_members_live _ HI)) as (i & Hfind & Hlru).
  pose proof Hlru as (lru & dl & Hi & Hdl & _).
  assert (Hnot : rd ∉ protectedList s).
  { rewrite Hiff, (segment_at_Some _ _ _ Hrd), Hseg. discriminate. }
  assert (Hneq : lru <> rd).
  { intros ->. apply Hnot. eapply list_elem_of_lookup_2, Hi. }
  destruct (delete_NoDup _ _ _ Hnd Hi) as [_ Hdel].
  eexists i, lru, dl, _. split_and!.
  - exact Hlru.
  - exact Hi.
  - exact Hdl.
  - apply (touch_demote_eq s rd d now Hrd i lru dl Hseg); [lia|assumption..].
  - simpl. rewrite list_lookup_insert_ne by congruence.
    apply list_lookup_insert_eq. eapply lookup_lt_Some, Hdl.
  - simpl. rewrite elem_of_app, list_elem_of_singleton, Hdel.
    intros [[_ ?]|?]; congruence.
  - simpl. apply list_lookup_insert_eq. rewrite length_insert.
    eapply lookup_lt_Some, Hrd.
  - reflexivity.
  - simpl. apply elem_of_app. right. apply list_elem_of_singleton. reflexivity.
  - reflexivity.
Qed.

Lemma C5_touch_demotes_lru_when_full_witness :
  let s := {| protectedSize := 2%Z; probationSize := 2%Z;
              protectedEntries := 2%Z; protectedList := [0; 1];
              objects := [ {| segment := Protected; lastTouch := 8%Z |};
                           {| segment := Protected; lastTouch := 6%Z |};
                           {| segment := Probation; lastTouch := 7%Z |} ] |} in
  exists i lru dl s',
    is_lru (objects s) (protectedList s) i /\
    protectedList s !! i = Some lru /\ objects s !! lru = Some dl /\
    touch 2 9%Z s = Done (tt, s') /\
    objects s' !! lru
    = Some {| segment := Probation; lastTouch := lastTouch dl |} /\
    (lru ∉ protectedList s') /\
    objects s' !! 2 = Some {| segment := Protected; lastTouch := 9%Z |} /\
    protectedList s' = delete i (protectedList s) ++ [2] /\
    2 ∈ protectedList s' /\
    protectedEntries s' = protectedEntries s.
Proof.
  intros s.
  apply (C5_touch_demotes_lru_when_full s 2
           {| segment := Probation; lastTouch := 7%Z |} 9%Z).
  - apply (bool_decide_unpack _). vm_compute. reflexivity.
  - vm_compute. reflexivity.
  - reflexivity.
  - reflexivity.
  - reflexivity.
Defined.

(** ** C8: the postcondition of [invalidate] *)

(** C8. For every live entry [rd], [invalidate rd] returns and leaves
    [rd] with segment [Probation] and tick [Tick(0)]. If [rd] was
    [Protected] and in [protectedList], its first occurrence is erased
    (so [rd] is gone when it occurred once) and [protectedEntries] is
    decremented: a decrease by exactly 1 for every non-zero [unsigned]
    counter, as the size of a list that holds [rd] is. If [rd] was
    [Protected] but not in [protectedList], the list and the counter are
    left as they were, and no error is raised. In a state of the tracker
    invariant a [Protected] entry is in the list once, so the counter
    decreases by exactly 1, the entry is gone, and the invariant holds
    again. *)
Theorem C8_invalidate_postcondition s rd d :
  objects s !! rd = Some d ->
  exists s',
    invalidate rd s = Done (tt, s') /\
    objects s' !! rd = Some {| segment := Probation; lastTouch := 0%Z |} /\
    (segment d = Protected -> rd ∈ protectedList s ->
       (exists i, protectedList s !! i = Some rd /\
          (forall j, j < i -> protectedList s !! j <> Some rd) /\
          protectedList s' = delete i (protectedList s)) /\
       length (protectedList s') = length (protectedList s) - 1 /\
       (NoDup (protectedList s) -> rd ∉ protectedList s') /\
       protectedEntries s' = to_unsigned (protectedEntries s - 1) /\
       ((0 < protectedEntries s < 2 ^ 32)%Z ->
          protectedEntries s' = (protectedEntries s - 1)%Z)) /\
    (segment d = Protected -> rd ∉ protectedList s ->
       protectedList s' = protectedList s /\
       protectedEntries s' = protectedEntries s) /\
    (Inv s -> segment d = Protected ->
       protectedEntries s' = (protectedEntries s - 1)%Z /\
       (rd ∉ protectedList s') /\ Inv s').
Proof.
  intros Hrd. eexists. split; [apply (invalidate_eq _ _ _ Hrd)|].
  split_and!.
  - apply store_lookup_eq with (d0 := d).
    destruct (decide _); [rewrite objects_erased|]; exact Hrd.
  - intros Hp Hin. destruct (decide (segment d = Protected)) as [_|?]; [|contradiction].
    destruct (erased_found _ _ Hin) as (i & Hi & Hfirst & ->). simpl.
    split_and!.
    + exists i. split_and!; [exact Hi|exact Hfirst|reflexivity].
    + apply length_delete. eauto.
    + intros Hnd [_ Hne]%(delete_NoDup _ _ _ Hnd Hi). congruence.
    + reflexivity.
    + intros Hc. unfold to_unsigned. apply Z.mod_small. lia.
  - intros Hp Hnot. destruct (decide (segment d = Protected)) as [_|?]; [|contradiction].
    rewrite (erased_absent _ _ Hnot). split; reflexivity.
  - intros HI Hp. pose proof (Inv_clear s rd d 0%Z HI Hrd) as HI'.
    apply Inv_alt in HI as (Hc & Hcap & Hu & Hnd & Hiff).
    assert (Hin : rd ∈ protectedList s).
    { rewrite Hiff, (segment_at_Some _ _ _ Hrd), Hp. reflexivity. }
    destruct (decide (segment d = Protected)) as [_|?]; [|contradiction].
    destruct (erased_found _ _ Hin) as (i & Hi & _ & Herased).
    rewrite Herased in HI' |- *. simpl.
    pose proof (lookup_lt_Some _ _ _ Hi) as Hlen.
    split_and!; [|intros [_ Hne]%(delete_NoDup _ _ _ Hnd Hi); congruence|exact HI'].
    unfold to_unsigned. apply Z.mod_small. lia.
Qed.

Lemma C8_invalidate_postcondition_witness :
  let s := {| protectedSize := 2%Z; probationSize := 2%Z;
              protectedEntries := 2%Z; protectedList := [1; 0];
              objects := [ {| segment := Protected; lastTouch := 8%Z |};
                           {| segment := Protected; lastTouch := 6%Z |} ] |} in
  exists s',
    invalidate 0 s = Done (tt, s') /\
    objects s' !! 0 = Some {| segment := Probation; lastTouch := 0%Z |} /\
    (Protected = Protected -> 0 ∈ protectedList s ->
       (exists i, protectedList s !! i = Some 0 /\
          (forall j, j < i -> protectedList s !! j <> Some 0) /\
          protectedList s' = delete i (protectedList s)) /\
       length (protectedList s') = length (protectedList s) - 1 /\
       (NoDup (protectedList s) -> 0 ∉ protectedList s') /\
       protectedEntries s' = to_unsigned (protectedEntries s - 1) /\
       ((0 < protectedEntries s < 2 ^ 32)%Z ->
          protectedEntries s' = (protectedEntries s - 1)%Z)) /\
    (Protected = Protected -> 0 ∉ protectedList s ->
       protectedList s' = protectedList s /\
       protectedEntries s' = protectedEntries s) /\
    (Inv s -> Protected = Protected ->
       protectedEntries s' = (protectedEntries s - 1)%Z /\
       (0 ∉ protectedList s') /\ Inv s').
Proof.
  intros s.
  apply (C8_invalidate_postcondition s 0 {| segment := Protected; lastTouch := 8%Z |}).
  reflexivity.
Defined.

(** ** C10: the victim is one of the candidates *)

(** C10. Whenever a [getVictim] call returns, in either copy, the pointer
    it returns is not null and is an element of the candidate list it was
    given. *)
Theorem C10_victim_is_a_candidate v candidates now s r s' :
  getVictimV v candidates now s = Done (r, s') ->
  exists e, r = Some e /\ e ∈ candidates.
Proof.
  intros Hrun.
  destruct (getVictimV_Done _ _ _ _ _ _ Hrun) as [Hne Hlive].
  assert (Hin : forall seg e,
            fst (oldest_of seg (objects s) candidates None MaxTick) = Some e ->
            e ∈ candidates).
  { intros seg e He.
    destruct (oldest_of_init (objects s) seg candidates Hlive)
      as [[Hnone _]|(i & e' & Hsome & (d & Hi & _) & _)]; [congruence|].
    rewrite Hsome in He. injection He as <-.
    eapply list_elem_of_lookup_2, Hi. }
  destruct v; simpl in Hrun.
  - rewrite (getVictim_eq _ _ now Hne Hlive) in Hrun.
    destruct (fst (oldest_of Probation _ _ _ _)) as [e|] eqn:E1.
    { injection Hrun as <- _. exists e. split; [reflexivity|]. eapply Hin, E1. }
    destruct (fst (oldest_of Protected _ _ _ _)) as [e|] eqn:E2; [|discriminate].
    injection Hrun as <- _. exists e. split; [reflexivity|]. eapply Hin, E2.
  - rewrite (getVictim_strict_eq _ _ Hne Hlive) in Hrun.
    destruct (fst (oldest_of Probation _ _ _ _)) as [e|] eqn:E1; [|discriminate].
    injection Hrun as <- _. exists e. split; [reflexivity|]. eapply Hin, E1.
Qed.

Lemma C10_victim_is_a_candidate_witness :
  exists e, Some (mkEntry 1 1) = Some e /\ e ∈ [mkEntry 0 0; mkEntry 1 1].
Proof.
  eapply (C10_victim_is_a_candidate Fallback [mkEntry 0 0; mkEntry 1 1]
            MaxTick late_probation).
  vm_compute. reflexivity.
Defined.

(** ** C9: [probationSize] is never read *)

Section probation_size.
Variable n : Z.

Local Abbreviation P := (with_probationSize n).

Lemma oblivious_ret {A} (a : A) : oblivious n (ret a).
Proof. intros s. reflexivity. Qed.

Lemma oblivious_bind {A B} (m : M A) (k : A -> M B) :
  oblivious n m -> (forall a, oblivious n (k a)) -> oblivious n (bind m k).
Proof.
  intros Hm Hk s. unfold bind. rewrite Hm.
  destruct (m s) as [[a s1]| |]; simpl; [apply Hk|reflexivity..].
Qed.

Lemma oblivious_assert b : oblivious n (assert b).
Proof. intros s. destruct b; reflexivity. Qed.

Lemma oblivious_deref rd : oblivious n (deref rd).
Proof. intros s. unfold deref. simpl. destruct (objects s !! rd); reflexivity. Qed.

Lemma oblivious_set_segment rd v : oblivious n (set_segment rd v).
Proof.
  intros s. unfold set_segment, bind, deref, get, put. simpl.
  destruct (objects s !! rd); reflexivity.
Qed.

Lemma oblivious_set_lastTouch rd t : oblivious n (set_lastTouch rd t).
Proof.
  intros s. unfold set_lastTouch, bind, deref, get, put. simpl.
  destruct (objects s !! rd); reflexivity.
Qed.

Lemma oblivious_erase_protected rd : oblivious n (erase_protected rd).
Proof.
  intros s. unfold erase_protected, bind, get, put, ret. simpl.
  destruct (list_find _ _) as [[it a]|]; reflexivity.
Qed.

Lemma oblivious_find_lru : oblivious n find_lru.
Proof.
  intros s. unfold find_lru. simpl.
  destruct (protectedList s) as [|a0 l]; [reflexivity|].
  destruct (objects s !! a0); [|reflexivity].
  destruct (lru_scan _ _ _ _ _); reflexivity.
Qed.

Lemma oblivious_lift_scan f : oblivious n (lift_scan f).
Proof. intros s. unfold lift_scan. simpl. destruct (f (objects s)); reflexivity. Qed.

(** Reading the fields the code reads, and writing the tracker. *)
Lemma oblivious_read {A} (k : SLRU -> M A) :
  (forall s0, k (P s0) = k s0) -> (forall s0, oblivious n (k s0)) ->
  oblivious n (bind get k).
Proof. intros Hk Ho s. unfold bind, get. rewrite Hk. apply Ho. Qed.

Lemma oblivious_undefined {A} : oblivious n (@undefined A).
Proof. intros s. reflexivity. Qed.

(** Writing the tracker in the middle of an operation. *)
Lemma oblivious_update {A} (f : SLRU -> SLRU) (k : M A) :
  (forall s, f (P s) = P (f s)) -> oblivious n k ->
  oblivious n (bind get (fun s => bind (put (f s)) (fun _ => k))).
Proof. intros Hf Hk s. unfold bind, get, put. rewrite Hf. apply Hk. Qed.

Local Ltac obl :=
  repeat
    lazymatch goal with
    | |- oblivious _ (bind get (fun s => put _)) => intros ?; reflexivity
    | |- oblivious _ (bind get (fun s => bind (put _) _)) =>
        apply oblivious_update; [intros ?; reflexivity|]
    | |- oblivious _ (bind get _) => apply oblivious_read; [reflexivity|intros ?]
    | |- oblivious _ (bind _ _) => apply oblivious_bind; [|intros ?]
    | |- oblivious _ (ret _) => apply oblivious_ret
    | |- oblivious _ (assert _) => apply oblivious_assert
    | |- oblivious _ (deref _) => apply oblivious_deref
    | |- oblivious _ (set_segment _ _) => apply oblivious_set_segment
    | |- oblivious _ (set_lastTouch _ _) => apply oblivious_set_lastTouch
    | |- oblivious _ (erase_protected _) => apply oblivious_erase_protected
    | |- oblivious _ find_lru => apply oblivious_find_lru
    | |- oblivious _ (lift_scan _) => apply oblivious_lift_scan
    | |- oblivious _ undefined => apply oblivious_undefined
    | |- oblivious _ (if ?b then _ else _) => destruct b
    | |- oblivious _ (match ?o with Some _ => _ | None => _ end) => destruct o
    end.

Lemma oblivious_invalidate rd : oblivious n (invalidate rd).
Proof. unfold invalidate. obl. Qed.

Lemma oblivious_reset rd now : oblivious n (reset rd now).
Proof. unfold reset. obl. Qed.

Lemma oblivious_touch rd now : oblivious n (touch rd now).
Proof. unfold touch. obl. Qed.

Lemma oblivious_getVictim candidates now : oblivious n (getVictim candidates now).
Proof. unfold getVictim. obl. Qed.

Lemma oblivious_getVictim_strict candidates :
  oblivious n (getVictim_strict candidates).
Proof. unfold getVictim_strict. obl. Qed.

Lemma oblivious_instantiateEntry : oblivious n instantiateEntry.
Proof. intros s. reflexivity. Qed.

Lemma oblivious_exec v c : oblivious n (exec v c).
Proof.
  destruct c; simpl.
  - apply oblivious_bind; [apply oblivious_instantiateEntry|intros; apply oblivious_ret].
  - apply oblivious_bind; [apply oblivious_touch|intros; apply oblivious_ret].
  - apply oblivious_bind; [apply oblivious_reset|intros; apply oblivious_ret].
  - apply oblivious_bind; [apply oblivious_invalidate|intros; apply oblivious_ret].
  - apply oblivious_bind; [|intros; apply oblivious_ret].
    destruct v; [apply oblivious_getVictim|apply oblivious_getVictim_strict].
Qed.

Lemma oblivious_run v cs : oblivious n (run v cs).
Proof.
  induction cs as [|c cs IH]; simpl.
  - apply oblivious_ret.
  - apply oblivious_bind; [apply oblivious_exec|intros r].
    apply oblivious_bind; [exact IH|intros rs]. apply oblivious_ret.
Qed.

End probation_size.

Lemma observe_on_state {A} n (o : outcome (A * SLRU)) :
  observe (on_state (with_probationSize n) o) = observe o.
Proof. destruct o as [[a s]| |]; reflexivity. Qed.

(** The stored value is the constructor's, whatever is called. *)
Lemma run_probationSize v cs s rs s' :
  run v cs s = Done (rs, s') -> probationSize s' = probationSize s.
Proof.
  intros Hrun.
  pose proof (oblivious_run (probationSize s) v cs s) as H.
  replace (with_probationSize (probationSize s) s) with s in H
    by (destruct s; reflexivity).
  rewrite Hrun in H. simpl in H. injection H as H. rewrite H. reflexivity.
Qed.

(** C9. Two policies constructed with the same [protected_size] and any
    two [probation_size], run on the same sequence of calls with the same
    clock, with either copy of [getVictim]: the runs end alike (both
    return, both fail an assertion, or both are undefined), the replies are
    identical, and so is all of the final state but the stored
    [probationSize], which is the one given to the constructor. *)
Theorem C9_probation_size_noninterference v cs p1 p2 :
  protected_size p1 = protected_size p2 ->
  observe (run v cs (SLRU_new p1)) = observe (run v cs (SLRU_new p2)) /\
  forall rs s, run v cs (SLRU_new p1) = Done (rs, s) ->
    probationSize s = to_unsigned (probation_size p1).
Proof.
  intros Hsize. split.
  - replace (SLRU_new p2)
      with (with_probationSize (to_unsigned (probation_size p2)) (SLRU_new p1))
      by (unfold SLRU_new, with_probationSize; simpl; rewrite Hsize; reflexivity).
    rewrite oblivious_run, observe_on_state. reflexivity.
  - intros rs s Hrun. apply run_probationSize in Hrun. exact Hrun.
Qed.

Lemma C9_probation_size_noninterference_witness :
  let cs := [CallInstantiate; CallInstantiate; CallTouch 0 3%Z; CallTouch 1 4%Z;
             CallReset 1 5%Z; CallGetVictim [mkEntry 0 0; mkEntry 1 1] 6%Z;
             CallInvalidate 0] in
  observe (run Fallback cs (SLRU_new (mkParams 1 2)))
  = observe (run Fallback cs (SLRU_new (mkParams 1 9))) /\
  forall rs s, run Fallback cs (SLRU_new (mkParams 1 2)) = Done (rs, s) ->
    probationSize s = to_unsigned (probation_size (mkParams 1 2)).
Proof.
  intros cs.
  apply (C9_probation_size_noninterference Fallback cs (mkParams 1 2) (mkParams 1 9)).
  reflexivity.
Defined.

(** * Further properties of the code *)

(** ** What the entry points keep

    A state property that survives a write of the tracker and a write of
    a segment, and survives the writes of ticks described by [W], is kept
    by every entry point whose tick write [W] allows. *)

Section keeping.
Variable I : SLRU -> Prop.
Variable W : addr -> Tick -> Prop.
Hypothesis I_protected : forall n l s, I s -> I (with_protected n l s).
Hypothesis I_segment : forall rd v d s,
  objects s !! rd = Some d -> I s ->
  I (store rd {| segment := v; lastTouch := lastTouch d |} s).
Hypothesis I_tick : forall rd t d s,
  W rd t -> objects s !! rd = Some d -> I s ->
  I (store rd {| segment := segment d; lastTouch := t |} s).

Lemma keeps_ret {A} (a : A) : keeps I (ret a).
Proof. intros s b s' HI [= _ <-]. exact HI. Qed.

Lemma keeps_bind {A B} (m : M A) (k : A -> M B) :
  keeps I m -> (forall a, keeps I (k a)) -> keeps I (bind m k).
Proof.
  intros Hm Hk s b s' HI (a & s1 & H1 & H2)%bind_Done.
  eapply Hk; [|exact H2]. eapply Hm; eassumption.
Qed.

Lemma keeps_read {A} (k : SLRU -> M A) :
  (forall s0, keeps I (k s0)) -> keeps I (bind get k).
Proof. intros Hk s b s' HI H. unfold bind, get in H. eapply Hk; eassumption. Qed.

Lemma keeps_write (f : SLRU -> Z) (g : SLRU -> list addr) :
  keeps I (bind get (fun s => put (with_protected (f s) (g s) s))).
Proof using I_protected. intros s b s' HI [= _ <-]. apply I_protected, HI. Qed.

Lemma keeps_write_then {A} (f : SLRU -> Z) (g : SLRU -> list addr) (k : M A) :
  keeps I k ->
  keeps I (bind get (fun s => bind (put (with_protected (f s) (g s) s))
                                (fun _ => k))).
Proof using I_protected.
  intros Hk s b s' HI H. unfold bind at 1 2, get, put in H.
  eapply Hk; [|exact H]. apply I_protected, HI.
Qed.

Lemma keeps_assert b : keeps I (assert b).
Proof. intros s a s' HI H. destruct b; [|discriminate]. injection H as _ <-. exact HI. Qed.

Lemma keeps_undefined {A} : keeps I (@undefined A).
Proof. intros s a s' _ H. discriminate. Qed.

Lemma keeps_deref rd : keeps I (deref rd).
Proof.
  intros s a s' HI H. unfold deref in H.
  destruct (objects s !! rd); [|discriminate]. injection H as _ <-. exact HI.
Qed.

Lemma keeps_find_lru : keeps I find_lru.
Proof.
  intros s a s' HI H. unfold find_lru in H.
  destruct (protectedList s) as [|a0 l]; [discriminate|].
  destruct (objects s !! a0); [|discriminate].
  destruct (lru_scan _ _ _ _ _); [|discriminate..]. injection H as _ <-. exact HI.
Qed.

Lemma keeps_lift_scan f : keeps I (lift_scan f).
Proof.
  intros s a s' HI H. unfold lift_scan in H.
  destruct (f (objects s)); [|discriminate..]. injection H as _ <-. exact HI.
Qed.

Lemma keeps_set_segment rd v : keeps I (set_segment rd v).
Proof using I_segment.
  intros s a s' HI H. destruct (objects s !! rd) as [d|] eqn:Hrd.
  - rewrite (set_segment_eq _ _ _ v Hrd) in H. injection H as _ <-.
    apply I_segment; assumption.
  - unfold set_segment, bind in H. rewrite (deref_None _ _ Hrd) in H. discriminate.
Qed.

Lemma keeps_set_lastTouch rd t : W rd t -> keeps I (set_lastTouch rd t).
Proof using I_tick.
  intros HW s a s' HI H. destruct (objects s !! rd) as [d|] eqn:Hrd.
  - rewrite (set_lastTouch_eq _ _ _ t Hrd) in H. injection H as _ <-.
    apply I_tick; assumption.
  - unfold set_lastTouch, bind in H. rewrite (deref_None _ _ Hrd) in H. discriminate.
Qed.

Lemma keeps_erase_protected rd : keeps I (erase_protected rd).
Proof using I_protected.
  intros s a s' HI H. rewrite erase_protected_eq in H. injection H as _ <-.
  unfold erased. destruct (list_find _ _) as [[it x]|]; [apply I_protected|]; exact HI.
Qed.

Local Ltac kp :=
  repeat
    lazymatch goal with
    | |- keeps _ (bind get (fun s => put _)) => apply keeps_write
    | |- keeps _ (bind get (fun s => bind (put _) _)) => apply keeps_write_then
    | |- keeps _ (bind get _) => apply keeps_read; intros ?
    | |- keeps _ (bind _ _) => apply keeps_bind; [|intros ?]
    | |- keeps _ (ret _) => apply keeps_ret
    | |- keeps _ (assert _) => apply keeps_assert
    | |- keeps _ (deref _) => apply keeps_deref
    | |- keeps _ (set_segment _ _) => apply keeps_set_segment
    | |- keeps _ (set_lastTouch _ _) => apply keeps_set_lastTouch; try assumption
    | |- keeps _ (erase_protected _) => apply keeps_erase_protected
    | |- keeps _ find_lru => apply keeps_find_lru
    | |- keeps _ (lift_scan _) => apply keeps_lift_scan
    | |- keeps _ undefined => apply keeps_undefined
    | |- keeps _ (if ?b then _ else _) => destruct b
    | |- keeps _ (match ?o with Some _ => _ | None => _ end) => destruct o
    end.

Lemma keeps_invalidate rd : W rd 0%Z -> keeps I (invalidate rd).
Proof using All. intros HW. unfold invalidate. kp. Qed.

Lemma keeps_reset rd now : W rd now -> keeps I (reset rd now).
Proof using All. intros HW. unfold reset. kp. Qed.

Lemma keeps_touch rd now : W rd now -> keeps I (touch rd now).
Proof using All. intros HW. unfold touch. kp. Qed.

Lemma keeps_getVictim candidates now :
  (forall a, W a now) -> keeps I (getVictim candidates now).
Proof using All. intros HW. unfold getVictim. kp. apply HW. Qed.

Lemma keeps_getVictim_strict candidates :
  keeps I (getVictim_strict candidates).
Proof using All. unfold getVictim_strict. kp. Qed.

End keeping.

(** ** Instances: the shape of the state, the stored ticks, one tick *)

Section shape.
Variables (c c' : Z) (n : nat).

Local Abbreviation shape := (shape_is c c' n).

Lemma keeps_shape_exec v (cl : call) :
  cl <> CallInstantiate -> keeps shape (exec v cl).
Proof.
  assert (Hp : forall m l s, shape s -> shape (with_protected m l s)) by (intros; assumption).
  assert (Hs : forall rd (x : Segment) d s, objects s !! rd = Some d -> shape s ->
            shape (store rd {| segment := x; lastTouch := lastTouch d |} s)).
  { intros rd x d s _ (H1 & H2 & H3). unfold shape_is. simpl.
    rewrite length_insert. auto. }
  assert (Ht : forall rd (t : Tick) d s, True -> objects s !! rd = Some d -> shape s ->
            shape (store rd {| segment := segment d; lastTouch := t |} s)).
  { intros rd t d s _ _ (H1 & H2 & H3). unfold shape_is. simpl.
    rewrite length_insert. auto. }
  intros Hne. destruct cl as [|rd now|rd now|rd|candidates now]; simpl;
    [contradiction|..];
    (apply keeps_bind; [|intros; apply keeps_ret]).
  - apply (keeps_touch shape (fun _ _ => True) Hp Hs Ht). exact Logic.I.
  - apply (keeps_reset shape (fun _ _ => True) Hp Hs Ht). exact Logic.I.
  - apply (keeps_invalidate shape (fun _ _ => True) Hp Hs Ht). exact Logic.I.
  - destruct v.
    + apply (keeps_getVictim shape (fun _ _ => True) Hp Hs Ht). intros; exact Logic.I.
    + apply (keeps_getVictim_strict shape (fun _ _ => True) Hp Hs Ht).
Qed.

End shape.

Lemma exec_shape v cl s r s' :
  exec v cl s = Done (r, s') ->
  protectedSize s' = protectedSize s /\ probationSize s' = probationSize s /\
  length (objects s') = length (objects s) + instantiations [cl].
Proof.
  intros H.
  assert (Hcl : cl = CallInstantiate \/ cl <> CallInstantiate)
    by (destruct cl; [left; reflexivity|right; discriminate..]).
  destruct Hcl as [->|Hne].
  - injection H as _ <-. simpl. rewrite length_app. simpl. auto.
  - pose proof (keeps_shape_exec (protectedSize s) (probationSize s)
                  (length (objects s)) v cl Hne s r s') as Hk.
    assert (H0 : shape_is (protectedSize s) (probationSize s)
                   (length (objects s)) s) by (split_and!; reflexivity).
    destruct (Hk H0 H) as (H1 & H2 & H3).
    split_and!; [exact H1|exact H2|].
    rewrite H3. destruct cl; simpl; try lia. contradiction.
Qed.

Section ticks.
Variable Q : Tick -> Prop.
Hypothesis Q0 : Q 0%Z.

Local Abbreviation ticks := (ticks_in Q).

Lemma keeps_ticks_exec v (cl : call) :
  match call_tick cl with Some t => Q t | None => True end ->
  keeps ticks (exec v cl).
Proof using Q0.
  assert (Hp : forall m l s, ticks s -> ticks (with_protected m l s)) by (intros; assumption).
  assert (Hs : forall rd (x : Segment) d s, objects s !! rd = Some d -> ticks s ->
            ticks (store rd {| segment := x; lastTouch := lastTouch d |} s)).
  { intros rd x d s Hd H. unfold ticks_in. simpl. apply Forall_insert; [exact H|].
    simpl. exact (Forall_lookup_1 _ _ _ _ H Hd). }
  assert (Ht : forall rd (t : Tick) d s, Q t -> objects s !! rd = Some d -> ticks s ->
            ticks (store rd {| segment := segment d; lastTouch := t |} s)).
  { intros rd t d s HQ _ H. unfold ticks_in. simpl. apply Forall_insert; [exact H|].
    exact HQ. }
  intros Hc. destruct cl as [|rd now|rd now|rd|candidates now]; simpl in *.
  - intros s a s' H [= _ <-]. unfold ticks_in. simpl. apply Forall_app. split; [exact H|].
    constructor; [exact Q0|constructor].
  - apply keeps_bind; [|intros; apply keeps_ret].
    apply (keeps_touch ticks (fun _ t => Q t) Hp Hs Ht). exact Hc.
  - apply keeps_bind; [|intros; apply keeps_ret].
    apply (keeps_reset ticks (fun _ t => Q t) Hp Hs Ht). exact Hc.
  - apply keeps_bind; [|intros; apply keeps_ret].
    apply (keeps_invalidate ticks (fun _ t => Q t) Hp Hs Ht). exact Q0.
  - apply keeps_bind; [|intros; apply keeps_ret]. destruct v.
    + apply (keeps_getVictim ticks (fun _ t => Q t) Hp Hs Ht). intros _. exact Hc.
    + apply (keeps_getVictim_strict ticks (fun _ t => Q t) Hp Hs Ht).
Qed.

Lemma run_ticks v cs :
  clock_in Q cs ->
  forall s rs s', ticks s -> run v cs s = Done (rs, s') -> ticks s'.
Proof using Q0.
  induction 1 as [|cl cs Hc _ IH]; intros s rs s' Hs Hrun; simpl in Hrun.
  - injection Hrun as _ <-. exact Hs.
  - apply bind_Done in Hrun as (r & s1 & H1 & H2).
    apply bind_Done in H2 as (rs' & s2 & H2 & H3). injection H3 as _ <-.
    eapply IH; [|exact H2]. eapply keeps_ticks_exec; eassumption.
Qed.

End ticks.

Lemma run_shape v cs : forall s rs s',
  run v cs s = Done (rs, s') ->
  protectedSize s' = protectedSize s /\ probationSize s' = probationSize s /\
  length (objects s') = length (objects s) + instantiations cs.
Proof.
  induction cs as [|cl cs IH]; intros s rs s' Hrun; simpl in Hrun.
  - injection Hrun as _ <-. simpl. split_and!; [reflexivity..|lia].
  - apply bind_Done in Hrun as (r & s1 & H1 & H2).
    apply bind_Done in H2 as (rs' & s2 & H2 & H3). injection H3 as _ <-.
    apply exec_shape in H1 as (A1 & A2 & A3).
    apply IH in H2 as (B1 & B2 & B3).
    split_and!; [congruence..|].
    rewrite B3, A3. simpl. destruct cl; simpl; lia.
Qed.

Lemma keeps_tick_of_touch (a0 : addr) (v : option Tick) rd now :
  rd <> a0 ->
  keeps (fun s => lastTouch <$> objects s !! a0 = v) (touch rd now).
Proof.
  intros Hne.
  apply (keeps_touch _ (fun r _ => r <> a0)); [| | |exact Hne].
  - intros m l s H. exact H.
  - intros r x d s Hd H. simpl.
    destruct (decide (r = a0)) as [->|Hr].
    + rewrite list_lookup_insert_eq by (eapply lookup_lt_Some, Hd).
      rewrite Hd in H. exact H.
    + rewrite list_lookup_insert_ne by exact Hr. exact H.
  - intros r t d s Hr Hd H. simpl.
    rewrite list_lookup_insert_ne by exact Hr. exact H.
Qed.

Lemma set_lastTouch_Done rd t s u s' :
  set_lastTouch rd t s = Done (u, s') ->
  lastTouch <$> objects s' !! rd = Some t.
Proof.
  intros H. destruct (objects s !! rd) as [d|] eqn:Hrd.
  - rewrite (set_lastTouch_eq _ _ _ t Hrd) in H. injection H as _ <-.
    rewrite (store_lookup_eq _ _ _ _ Hrd). reflexivity.
  - unfold set_lastTouch, bind in H. rewrite (deref_None _ _ Hrd) in H. discriminate.
Qed.

(** A returned victim was probationary and the state is as it was, or (in
    the copy with the fallback) it was protected and has been demoted. *)
Lemma getVictimV_victim v candidates now s r s' :
  getVictimV v candidates now s = Done (r, s') ->
  exists e d, r = Some e /\ e ∈ candidates /\
    objects s !! replacementData e = Some d /\
    ((segment d = Probation /\ s' = s) \/
     (v = Fallback /\ segment d = Protected /\
      s' = erased (replacementData e)
             (store (replacementData e)
                {| segment := Probation; lastTouch := now |} s))).
Proof.
  intros Hrun.
  destruct (getVictimV_Done _ _ _ _ _ _ Hrun) as [Hne Hlive].
  assert (Hsel : forall seg e,
            fst (oldest_of seg (objects s) candidates None MaxTick) = Some e ->
            exists d, e ∈ candidates /\
              objects s !! replacementData e = Some d /\ segment d = seg).
  { intros seg e He.
    destruct (oldest_of_init (objects s) seg candidates Hlive)
      as [[Hnone _]|(i & e' & Hsome & (d & Hi & Hd & Hseg & _) & _)]; [congruence|].
    rewrite Hsome in He. injection He as <-. exists d.
    split_and!; [eapply list_elem_of_lookup_2, Hi|exact Hd|exact Hseg]. }
  destruct v; simpl in Hrun.
  - rewrite (getVictim_eq _ _ now Hne Hlive) in Hrun.
    destruct (fst (oldest_of Probation _ _ _ _)) as [e|] eqn:E1.
    { injection Hrun as <- <-. destruct (Hsel _ _ E1) as (d & Hin & Hd & Hseg).
      exists e, d. split_and!; [reflexivity|exact Hin|exact Hd|]. left. auto. }
    destruct (fst (oldest_of Protected _ _ _ _)) as [e|] eqn:E2; [|discriminate].
    injection Hrun as <- <-. destruct (Hsel _ _ E2) as (d & Hin & Hd & Hseg).
    exists e, d. split_and!; [reflexivity|exact Hin|exact Hd|]. right. auto.
  - rewrite (getVictim_strict_eq _ _ Hne Hlive) in Hrun.
    destruct (fst (oldest_of Probation _ _ _ _)) as [e|] eqn:E1; [|discriminate].
    injection Hrun as <- <-. destruct (Hsel _ _ E1) as (d & Hin & Hd & Hseg).
    exists e, d. split_and!; [reflexivity|exact Hin|exact Hd|]. left. auto.
Qed.

(** ** [reset] and [invalidate] *)

(** X1. [reset] does the bookkeeping of [invalidate] and differs from it
    in one field: on a live entry both return, they leave the same
    [protectedList], the same [protectedEntries] and the same other
    entries, and the entry itself is [Probation] with tick [now] after
    [reset], where [invalidate] leaves tick 0. *)
Theorem X1_reset_is_invalidate_with_tick s rd d now :
  objects s !! rd = Some d ->
  exists s1 s2,
    invalidate rd s = Done (tt, s1) /\ reset rd now s = Done (tt, s2) /\
    protectedList s2 = protectedList s1 /\
    protectedEntries s2 = protectedEntries s1 /\
    objects s2
    = <[rd := {| segment := Probation; lastTouch := now |}]> (objects s1) /\
    objects s2 !! rd = Some {| segment := Probation; lastTouch := now |}.
Proof.
  intros Hrd. eexists _, _.
  split; [apply (invalidate_eq _ _ _ Hrd)|].
  split; [apply (reset_eq _ _ _ now Hrd)|].
  split_and!; [reflexivity..| |].
  - simpl. rewrite list_insert_insert_eq. reflexivity.
  - apply store_lookup_eq with (d0 := d).
    destruct (decide _); [rewrite objects_erased|]; exact Hrd.
Qed.

Lemma X1_reset_is_invalidate_with_tick_witness :
  let s := {| protectedSize := 2%Z; probationSize := 2%Z;
              protectedEntries := 2%Z; protectedList := [1; 0];
              objects := [ {| segment := Protected; lastTouch := 8%Z |};
                           {| segment := Protected; lastTouch := 6%Z |} ] |} in
  exists s1 s2,
    invalidate 0 s = Done (tt, s1) /\ reset 0 9%Z s = Done (tt, s2) /\
    protectedList s2 = protectedList s1 /\
    protectedEntries s2 = protectedEntries s1 /\
    objects s2
    = <[0 := {| segment := Probation; lastTouch := 9%Z |}]> (objects s1) /\
    objects s2 !! 0 = Some {| segment := Probation; lastTouch := 9%Z |}.
Proof.
  intros s.
  apply (X1_reset_is_invalidate_with_tick s 0
           {| segment := Protected; lastTouch := 8%Z |} 9%Z).
  reflexivity.
Defined.

(** X2. [invalidate] and [reset] are idempotent: on a live entry, a second
    [invalidate], or a second [reset] at the same tick, returns and leaves
    the state of the first untouched. An [invalidate] after a [reset]
    gives the state of an [invalidate] alone. *)
Theorem X2_invalidate_reset_idempotent s rd d now :
  objects s !! rd = Some d ->
  exists s1 s2,
    invalidate rd s = Done (tt, s1) /\ invalidate rd s1 = Done (tt, s1) /\
    reset rd now s = Done (tt, s2) /\ reset rd now s2 = Done (tt, s2) /\
    invalidate rd s2 = Done (tt, s1).
Proof.
  intros Hrd.
  set (x := if decide (segment d = Protected) then erased rd s else s).
  assert (Hx : objects x !! rd = Some d).
  { unfold x. destruct (decide _); [rewrite objects_erased|]; exact Hrd. }
  exists (store rd {| segment := Probation; lastTouch := 0%Z |} x),
         (store rd {| segment := Probation; lastTouch := now |} x).
  split_and!.
  - apply (invalidate_eq _ _ _ Hrd).
  - rewrite (invalidate_eq _ _ _ (store_lookup_eq _ _ _ _ Hx)). simpl.
    rewrite store_store. reflexivity.
  - apply (reset_eq _ _ _ now Hrd).
  - rewrite (reset_eq _ _ _ now (store_lookup_eq _ _ _ _ Hx)). simpl.
    rewrite store_store. reflexivity.
  - rewrite (invalidate_eq _ _ _ (store_lookup_eq _ _ _ _ Hx)). simpl.
    rewrite store_store. reflexivity.
Qed.

Lemma X2_invalidate_reset_idempotent_witness :
  let s := {| protectedSize := 2%Z; probationSize := 2%Z;
              protectedEntries := 2%Z; protectedList := [1; 0];
              objects := [ {| segment := Protected; lastTouch := 8%Z |};
                           {| segment := Protected; lastTouch := 6%Z |} ] |} in
  exists s1 s2,
    invalidate 1 s = Done (tt, s1) /\ invalidate 1 s1 = Done (tt, s1) /\
    reset 1 9%Z s = Done (tt, s2) /\ reset 1 9%Z s2 = Done (tt, s2) /\
    invalidate 1 s2 = Done (tt, s1).
Proof.
  intros s.
  apply (X2_invalidate_reset_idempotent s 1
           {| segment := Protected; lastTouch := 6%Z |} 9%Z).
  reflexivity.
Defined.

(** ** [touch] *)

(** X3. Whatever branch it takes, a [touch] that returns stamps the touched
    entry with the current tick and writes no other tick: the tick of every
    other entry is as before (that of a demoted entry too), no entry
    appears or disappears, and the capacities are unchanged. *)
Theorem X3_touch_writes_one_tick rd now s s' :
  touch rd now s = Done (tt, s') ->
  lastTouch <$> objects s' !! rd = Some now /\
  (forall a, a <> rd ->
     lastTouch <$> objects s' !! a = lastTouch <$> objects s !! a) /\
  length (objects s') = length (objects s) /\
  protectedSize s' = protectedSize s.
Proof.
  intros Hrun. split_and!.
  - unfold touch in Hrun.
    apply bind_Done in Hrun as (data & s1 & _ & H2).
    apply bind_Done in H2 as (u & s2 & _ & H3).
    eapply set_lastTouch_Done, H3.
  - intros a Ha.
    apply (keeps_tick_of_touch a (lastTouch <$> objects s !! a) rd now
             ltac:(congruence) s tt s' eq_refl Hrun).
  - assert (H : exec Fallback (CallTouch rd now) s = Done (RetVoid, s')).
    { simpl. unfold bind. rewrite Hrun. reflexivity. }
    apply exec_shape in H as (_ & _ & H). simpl in H. lia.
  - assert (H : exec Fallback (CallTouch rd now) s = Done (RetVoid, s')).
    { simpl. unfold bind. rewrite Hrun. reflexivity. }
    apply exec_shape in H as (H & _). exact H.
Qed.

Lemma X3_touch_writes_one_tick_witness :
  let s := {| protectedSize := 1%Z; probationSize := 1%Z;
              protectedEntries := 1%Z; protectedList := [0];
              objects := [ {| segment := Protected; lastTouch := 8%Z |};
                           {| segment := Probation; lastTouch := 6%Z |} ] |} in
  let s' := {| protectedSize := 1%Z; probationSize := 1%Z;
               protectedEntries := 1%Z; protectedList := [1];
               objects := [ {| segment := Probation; lastTouch := 8%Z |};
                            {| segment := Protected; lastTouch := 9%Z |} ] |} in
  lastTouch <$> objects s' !! 1 = Some 9%Z /\
  (forall a, a <> 1 ->
     lastTouch <$> objects s' !! a = lastTouch <$> objects s !! a) /\
  length (objects s') = length (objects s) /\
  protectedSize s' = protectedSize s.
Proof.
  intros s s'. apply (X3_touch_writes_one_tick 1 9%Z s s').
  vm_compute. reflexivity.
Defined.

(** X4. A policy constructed with [protected_size] 0 (modulo [2^32]) can
    serve no [touch]: in every state it reaches, a [touch] of a live entry
    takes the full branch and reads [*protectedList.begin()] of the empty
    list, which is undefined behaviour. *)
Theorem X4_touch_with_capacity_zero v p cs rs s rd d now :
  to_unsigned (protected_size p) = 0%Z ->
  run v cs (SLRU_new p) = Done (rs, s) ->
  objects s !! rd = Some d ->
  touch rd now s = Undefined.
Proof.
  intros Hzero Hrun Hrd.
  pose proof (run_Inv v cs _ _ _ (Inv_new p) Hrun) as HI.
  apply run_shape in Hrun as (Hsize & _). simpl in Hsize. rewrite Hzero in Hsize.
  apply Inv_alt in HI as (Hc & Hcap & _ & _ & Hiff).
  assert (Hnil : protectedList s = []).
  { destruct (protectedList s); [reflexivity|]. simpl in Hc. lia. }
  apply touch_full_empty with (d := d); [exact Hrd| |lia|exact Hnil].
  destruct (segment d) eqn:Hseg; [reflexivity|].
  assert (Hin : rd ∈ protectedList s).
  { rewrite Hiff, (segment_at_Some _ _ _ Hrd), Hseg. reflexivity. }
  rewrite Hnil in Hin. apply not_elem_of_nil in Hin. contradiction.
Qed.

Lemma X4_touch_with_capacity_zero_witness :
  touch 0 5%Z {| protectedSize := 0%Z; probationSize := 3%Z;
                 protectedEntries := 0%Z; protectedList := [];
                 objects := [ SLRUReplData_new ] |}
  = Undefined.
Proof.
  apply (X4_touch_with_capacity_zero Fallback (mkParams 0 3) [CallInstantiate]
           [RetData 0] _ 0 SLRUReplData_new 5%Z);
    reflexivity.
Defined.

(** X5. A promotion is undone by an invalidation. In a state of the
    tracker invariant with spare protected capacity, [touch] of a
    [Probation] entry followed by [invalidate] of it gives the state that
    [invalidate] alone gives: the entry is appended to [protectedList] and
    found again there, and the counter goes up and down without wrapping. *)
Theorem X5_touch_then_invalidate s rd d now :
  Inv s -> objects s !! rd = Some d -> segment d = Probation ->
  (protectedEntries s < protectedSize s)%Z ->
  (touch rd now ;; invalidate rd) s = invalidate rd s /\
  exists s', invalidate rd s = Done (tt, s') /\
    protectedList s' = protectedList s /\
    protectedEntries s' = protectedEntries s.
Proof.
  intros HI Hrd Hseg Hlt.
  pose proof HI as (Hc & Hcap & Hu & Hnd & Hiff)%Inv_alt.
  assert (Hnot : rd ∉ protectedList s).
  { rewrite Hiff, (segment_at_Some _ _ _ Hrd), Hseg. discriminate. }
  assert (Hinv : invalidate rd s
                 = Done (tt, store rd {| segment := Probation; lastTouch := 0%Z |} s)).
  { rewrite (invalidate_eq _ _ _ Hrd), Hseg. reflexivity. }
  split; [|eexists; split; [exact Hinv|split; reflexivity]].
  rewrite Hinv.
  rewrite (bind_eq _ _ _ _ _ (touch_promote_eq s rd d now Hrd Hseg Hlt)).
  set (s1 := with_protected _ _ _).
  assert (Hrd1 : objects s1 !! rd = Some {| segment := Protected; lastTouch := now |}).
  { unfold s1. simpl. apply list_lookup_insert_eq. eapply lookup_lt_Some, Hrd. }
  rewrite (invalidate_eq _ _ _ Hrd1). simpl.
  assert (Hin1 : rd ∈ protectedList s1).
  { unfold s1. simpl. apply elem_of_app. right. apply list_elem_of_singleton. reflexivity. }
  destruct (erased_found _ _ Hin1) as (i & Hi & _ & ->).
  assert (Hi' : i = length (protectedList s)).
  { unfold s1 in Hi. simpl in Hi. apply lookup_app_Some in Hi as [Hi|[Hge Hi]].
    - destruct Hnot. eapply list_elem_of_lookup_2, Hi.
    - destruct (i - length (protectedList s)) as [|k] eqn:Ek; [lia|].
      simpl in Hi. rewrite lookup_nil in Hi. discriminate. }
  subst i. unfold s1, store, with_objects, with_protected. simpl.
  rewrite list_insert_insert_eq.
  rewrite (delete_middle (protectedList s) [] rd), app_nil_r.
  assert (Hw : to_unsigned (to_unsigned (protectedEntries s + 1) - 1)
               = protectedEntries s).
  { unfold to_unsigned. rewrite (Z.mod_small (protectedEntries s + 1)) by lia.
    rewrite Z.mod_small by lia. lia. }
  rewrite Hw. reflexivity.
Qed.

Lemma X5_touch_then_invalidate_witness :
  let s := {| protectedSize := 2%Z; probationSize := 2%Z;
              protectedEntries := 1%Z; protectedList := [0];
              objects := [ {| segment := Protected; lastTouch := 8%Z |};
                           {| segment := Probation; lastTouch := 6%Z |} ] |} in
  (touch 1 9%Z ;; invalidate 1) s = invalidate 1 s /\
  exists s', invalidate 1 s = Done (tt, s') /\
    protectedList s' = protectedList s /\
    protectedEntries s' = protectedEntries s.
Proof.
  intros s.
  apply (X5_touch_then_invalidate s 1 {| segment := Probation; lastTouch := 6%Z |} 9%Z).
  - apply (bool_decide_unpack _). vm_compute. reflexivity.
  - reflexivity.
  - reflexivity.
  - vm_compute. reflexivity.
Defined.

(** ** [getVictim] and its caller *)

(** X6. Victim selection is read-only except for the fallback: a strict
    [getVictim] that returns leaves the whole state as it was, and so does
    the copy with the fallback whenever the entry it returns was
    probationary. *)
Theorem X6_getVictim_reads_only v candidates now s r s' :
  getVictimV v candidates now s = Done (r, s') ->
  (v = Strict -> s' = s) /\
  (forall e d, r = Some e -> objects s !! replacementData e = Some d ->
     segment d = Probation -> s' = s).
Proof.
  intros Hrun.
  destruct (getVictimV_victim _ _ _ _ _ _ Hrun)
    as (e0 & d0 & -> & _ & Hd0 & [[_ ->]|(-> & Hprot & _)]).
  - split; reflexivity.
  - split; [discriminate|].
    intros e d [= <-] Hd Hseg. rewrite Hd0 in Hd. injection Hd as <-. congruence.
Qed.

Lemma X6_getVictim_reads_only_witness :
  let s := {| protectedSize := 1%Z; probationSize := 1%Z;
              protectedEntries := 1%Z; protectedList := [0];
              objects := [ {| segment := Protected; lastTouch := 8%Z |};
                           {| segment := Probation; lastTouch := 9%Z |} ] |} in
  (Fallback = Strict -> s = s) /\
  (forall e d, Some (mkEntry 1 1) = Some e ->
     objects s !! replacementData e = Some d ->
     segment d = Probation -> s = s).
Proof.
  intros s.
  apply (X6_getVictim_reads_only Fallback [mkEntry 0 0; mkEntry 1 1] 10%Z s).
  vm_compute. reflexivity.
Defined.

(** X7. The entry [getVictim] returns is probationary when the call
    returns, in both copies: it was so already, or the fallback has just
    demoted it. In a state of the tracker invariant it is then outside
    [protectedList], and the invariant still holds. *)
Theorem X7_victim_is_probationary v candidates now s r s' :
  getVictimV v candidates now s = Done (r, s') ->
  exists e, r = Some e /\
    segment_at s' (replacementData e) = Some Probation /\
    (Inv s -> (replacementData e ∉ protectedList s') /\ Inv s').
Proof.
  intros Hrun.
  assert (Hkeep : Inv s -> Inv s') by (intros HI; eapply getVictimV_Inv; eassumption).
  destruct (getVictimV_victim _ _ _ _ _ _ Hrun)
    as (e & d & -> & _ & Hd & Hcase).
  exists e. split; [reflexivity|].
  assert (Hseg : segment_at s' (replacementData e) = Some Probation).
  { destruct Hcase as [[Hseg ->]|(_ & _ & ->)].
    - rewrite (segment_at_Some _ _ _ Hd), Hseg. reflexivity.
    - unfold segment_at. rewrite objects_erased, (store_lookup_eq _ _ _ _ Hd).
      reflexivity. }
  split; [exact Hseg|].
  intros HI. split; [|exact (Hkeep HI)].
  apply Hkeep, Inv_alt in HI as (_ & _ & _ & _ & Hiff).
  rewrite Hiff, Hseg. discriminate.
Qed.

Lemma X7_victim_is_probationary_witness :
  exists e, Some (mkEntry 0 0) = Some e /\
    segment_at {| protectedSize := 4%Z; probationSize := 4%Z;
                  protectedEntries := 0%Z; protectedList := [];
                  objects := [ {| segment := Probation; lastTouch := 9%Z |} ] |}
               (replacementData e) = Some Probation /\
    (Inv {| protectedSize := 4%Z; probationSize := 4%Z;
            protectedEntries := 1%Z; protectedList := [0];
            objects := [ {| segment := Protected; lastTouch := 8%Z |} ] |} ->
     (replacementData e ∉ []) /\
     Inv {| protectedSize := 4%Z; probationSize := 4%Z;
            protectedEntries := 0%Z; protectedList := [];
            objects := [ {| segment := Probation; lastTouch := 9%Z |} ] |}).
Proof.
  apply (X7_victim_is_probationary Fallback [mkEntry 0 0] 9%Z
           {| protectedSize := 4%Z; probationSize := 4%Z;
              protectedEntries := 1%Z; protectedList := [0];
              objects := [ {| segment := Protected; lastTouch := 8%Z |} ] |}).
  vm_compute. reflexivity.
Defined.

(** X8. The caller's protocol: [reset] of the entry that [getVictim] has
    just returned always returns and does no tracker work. It leaves
    [protectedList] and [protectedEntries] as [getVictim] left them and
    only makes the entry [Probation] with the tick of the [reset]. *)
Theorem X8_reset_of_the_victim v candidates now now' s e s1 :
  getVictimV v candidates now s = Done (Some e, s1) ->
  exists s2,
    reset (replacementData e) now' s1 = Done (tt, s2) /\
    protectedList s2 = protectedList s1 /\
    protectedEntries s2 = protectedEntries s1 /\
    objects s2
    = <[replacementData e := {| segment := Probation; lastTouch := now' |}]>
        (objects s1).
Proof.
  intros Hrun.
  destruct (getVictimV_victim _ _ _ _ _ _ Hrun)
    as (e0 & d & [= <-] & _ & Hd & Hcase).
  assert (H1 : exists d1, objects s1 !! replacementData e = Some d1 /\
                 segment d1 = Probation).
  { destruct Hcase as [[Hseg ->]|(_ & _ & ->)]; [eauto|].
    eexists. rewrite objects_erased, (store_lookup_eq _ _ _ _ Hd). eauto. }
  destruct H1 as (d1 & Hd1 & Hseg1).
  eexists. split; [apply (reset_eq _ _ _ now' Hd1)|].
  rewrite Hseg1. simpl. split_and!; reflexivity.
Qed.

Lemma X8_reset_of_the_victim_witness :
  let s1 := {| protectedSize := 4%Z; probationSize := 4%Z;
               protectedEntries := 0%Z; protectedList := [];
               objects := [ {| segment := Probation; lastTouch := 9%Z |} ] |} in
  exists s2,
    reset 0 11%Z s1 = Done (tt, s2) /\
    protectedList s2 = protectedList s1 /\
    protectedEntries s2 = protectedEntries s1 /\
    objects s2
    = <[0 := {| segment := Probation; lastTouch := 11%Z |}]> (objects s1).
Proof.
  intros s1.
  apply (X8_reset_of_the_victim Fallback [mkEntry 0 0] 9%Z 11%Z
           {| protectedSize := 4%Z; probationSize := 4%Z;
              protectedEntries := 1%Z; protectedList := [0];
              objects := [ {| segment := Protected; lastTouch := 8%Z |} ] |}
           (mkEntry 0 0) s1).
  vm_compute. reflexivity.
Defined.

(** ** Whole runs *)

Lemma MaxTick_pos : below_MaxTick 0%Z.
Proof. unfold below_MaxTick, MaxTick. lia. Qed.

Lemma reached_below_MaxTick v p cs rs s :
  run v cs (SLRU_new p) = Done (rs, s) ->
  clock_in below_MaxTick cs ->
  ticks_in below_MaxTick s.
Proof.
  intros Hrun Hclock.
  eapply (run_ticks below_MaxTick MaxTick_pos v cs Hclock); [|exact Hrun].
  constructor.
Qed.

Lemma live_below n s candidates :
  length (objects s) = n ->
  Forall (fun e => replacementData e < n) candidates -> live s candidates.
Proof.
  intros <- H. eapply Forall_impl; [exact H|]. intros e He. simpl in He.
  apply lookup_lt_is_Some. exact He.
Qed.

Lemma getVictim_returns s candidates now :
  candidates <> [] -> live s candidates -> ticks_in below_MaxTick s ->
  exists r s', getVictim candidates now s = Done (r, s').
Proof.
  intros Hne Hlive Hticks.
  assert (Hlt : forall j e d, candidates !! j = Some e ->
            objects s !! replacementData e = Some d -> (lastTouch d < MaxTick)%Z).
  { intros j e d _ Hd. exact (Forall_lookup_1 _ _ _ _ Hticks Hd). }
  destruct (getVictim_aborts_iff s candidates now Hlive Hlt) as [[Habort _] _].
  destruct (getVictim candidates now s) as [[r s']| |] eqn:E.
  - eauto.
  - destruct Hne. apply Habort. reflexivity.
  - rewrite (getVictim_eq _ _ now Hne Hlive) in E.
    destruct (fst (oldest_of Probation _ _ _ _)); [discriminate|].
    destruct (fst (oldest_of Protected _ _ _ _)); discriminate.
Qed.

Lemma run_progress cs : forall n s,
  Inv s -> (0 < protectedSize s)%Z -> length (objects s) = n ->
  ticks_in below_MaxTick s ->
  well_formed n cs -> clock_in below_MaxTick cs ->
  exists rs s', run Fallback cs s = Done (rs, s').
Proof.
  induction cs as [|c cs IH]; intros n s HI Hpos Hlen Hticks Hwf Hclock.
  - exists [], s. reflexivity.
  - apply Forall_cons in Hclock as [Hc Hclock].
    assert (Hstep : exists r s1, exec Fallback c s = Done (r, s1) /\
              well_formed (length (objects s1)) cs).
    { destruct c as [|rd now|rd now|rd|candidates now]; simpl in Hwf |- *.
      - eexists _, _. split; [reflexivity|]. simpl.
        rewrite length_app, Hlen. simpl. rewrite Nat.add_1_r. exact Hwf.
      - destruct Hwf as [Hrd Hwf]. rewrite <- Hlen in Hrd.
        apply lookup_lt_is_Some in Hrd as [d Hd].
        destruct (touch_total s rd d now HI Hpos Hd) as (s1 & H1 & _).
        exists RetVoid, s1. rewrite (bind_eq _ _ _ _ _ H1).
        split; [reflexivity|].
        assert (H : exec Fallback (CallTouch rd now) s = Done (RetVoid, s1))
          by (simpl; rewrite (bind_eq _ _ _ _ _ H1); reflexivity).
        apply exec_shape in H as (_ & _ & ->). simpl.
        rewrite Nat.add_0_r, Hlen. exact Hwf.
      - destruct Hwf as [Hrd Hwf]. rewrite <- Hlen in Hrd.
        apply lookup_lt_is_Some in Hrd as [d Hd].
        rewrite (bind_eq _ _ _ _ _ (reset_eq _ _ _ now Hd)).
        eexists _, _. split; [reflexivity|]. simpl.
        rewrite length_insert.
        destruct (decide _); [rewrite objects_erased|]; rewrite Hlen; exact Hwf.
      - destruct Hwf as [Hrd Hwf]. rewrite <- Hlen in Hrd.
        apply lookup_lt_is_Some in Hrd as [d Hd].
        rewrite (bind_eq _ _ _ _ _ (invalidate_eq _ _ _ Hd)).
        eexists _, _. split; [reflexivity|]. simpl.
        rewrite length_insert.
        destruct (decide _); [rewrite objects_erased|]; rewrite Hlen; exact Hwf.
      - destruct Hwf as (Hne & Hcs & Hwf).
        destruct (getVictim_returns s candidates now Hne
                    (live_below _ _ _ Hlen Hcs) Hticks) as (r & s1 & H1).
        exists (RetVictim r), s1. rewrite (bind_eq _ _ _ _ _ H1).
        split; [reflexivity|].
        assert (H : exec Fallback (CallGetVictim candidates now) s
                    = Done (RetVictim r, s1))
          by (simpl; rewrite (bind_eq _ _ _ _ _ H1); reflexivity).
        apply exec_shape in H as (_ & _ & ->). simpl.
        rewrite Nat.add_0_r, Hlen. exact Hwf. }
    destruct Hstep as (r & s1 & H1 & Hwf1).
    destruct (IH (length (objects s1)) s1) as (rs & s2 & H2).
    + eapply exec_Inv; eassumption.
    + apply exec_shape in H1 as (-> & _). exact Hpos.
    + reflexivity.
    + eapply (keeps_ticks_exec below_MaxTick MaxTick_pos); eassumption.
    + exact Hwf1.
    + exact Hclock.
    + exists (r :: rs), s2. simpl.
      rewrite (bind_eq _ _ _ _ _ H1), (bind_eq _ _ _ _ _ H2). reflexivity.
Qed.

(** X9. The policy never invents a tick: in every state reached from the
    constructor, the tick of every entry is 0 (never touched, or
    invalidated) or the tick that one of the calls passed on from the
    clock. *)
Theorem X9_stored_ticks_come_from_the_clock v p cs rs s a d :
  run v cs (SLRU_new p) = Done (rs, s) ->
  objects s !! a = Some d ->
  lastTouch d = 0%Z \/
  exists c, c ∈ cs /\ call_tick c = Some (lastTouch d).
Proof.
  intros Hrun Hd.
  set (Q := fun t : Tick => t = 0%Z \/ exists c, c ∈ cs /\ call_tick c = Some t).
  assert (Hclock : clock_in Q cs).
  { apply Forall_forall. intros c Hc. destruct (call_tick c) as [t|] eqn:E; [|exact Logic.I].
    right. exists c. auto. }
  assert (H : ticks_in Q s).
  { eapply (run_ticks Q (or_introl eq_refl) v cs Hclock); [|exact Hrun]. constructor. }
  exact (Forall_lookup_1 _ _ _ _ H Hd).
Qed.

Lemma X9_stored_ticks_come_from_the_clock_witness :
  let cs := [CallInstantiate; CallInstantiate; CallTouch 0 3%Z; CallTouch 1 4%Z] in
  let d := {| segment := Probation; lastTouch := 3%Z |} in
  lastTouch d = 0%Z \/
  exists c, c ∈ cs /\ call_tick c = Some (lastTouch d).
Proof.
  intros cs d.
  apply (X9_stored_ticks_come_from_the_clock Fallback (mkParams 1 2) cs
           [RetData 0; RetData 1; RetVoid; RetVoid]
           {| protectedSize := 1%Z; probationSize := 2%Z;
              protectedEntries := 1%Z; protectedList := [1];
              objects := [ d; {| segment := Protected; lastTouch := 4%Z |} ] |}
           0 d).
  - vm_compute. reflexivity.
  - reflexivity.
Defined.

(** X10. Entries are never created or destroyed behind the caller's back
    and the capacities never change: after any run that returns, from any
    state, [protectedSize] and [probationSize] are as before and the number
    of entries has grown by the number of [instantiateEntry] calls. *)
Theorem X10_entries_and_capacities_persist v cs s rs s' :
  run v cs s = Done (rs, s') ->
  protectedSize s' = protectedSize s /\ probationSize s' = probationSize s /\
  length (objects s') = length (objects s) + instantiations cs.
Proof. apply run_shape. Qed.

Lemma X10_entries_and_capacities_persist_witness :
  let s' := {| protectedSize := 1%Z; probationSize := 2%Z;
               protectedEntries := 1%Z; protectedList := [1];
               objects := [ {| segment := Probation; lastTouch := 3%Z |};
                            {| segment := Protected; lastTouch := 4%Z |} ] |} in
  protectedSize s' = protectedSize (SLRU_new (mkParams 1 2)) /\
  probationSize s' = probationSize (SLRU_new (mkParams 1 2)) /\
  length (objects s')
  = length (objects (SLRU_new (mkParams 1 2)))
    + instantiations [CallInstantiate; CallInstantiate; CallTouch 0 3%Z;
                      CallTouch 1 4%Z].
Proof.
  intros s'.
  apply (X10_entries_and_capacities_persist Fallback
           [CallInstantiate; CallInstantiate; CallTouch 0 3%Z; CallTouch 1 4%Z]
           (SLRU_new (mkParams 1 2))
           [RetData 0; RetData 1; RetVoid; RetVoid] s').
  vm_compute. reflexivity.
Defined.

(** X11. The copy with the fallback never fails: with a positive
    [protected_size], a clock that stays below the largest tick, and a
    caller that passes only pointers it got from [instantiateEntry] and
    never an empty candidate vector, every sequence of calls returns; no
    assertion fails and nothing undefined is executed. *)
Theorem X11_fallback_policy_never_fails p cs :
  (0 < to_unsigned (protected_size p))%Z ->
  well_formed 0 cs -> clock_in below_MaxTick cs ->
  exists rs s, run Fallback cs (SLRU_new p) = Done (rs, s).
Proof.
  intros Hpos Hwf Hclock.
  apply (run_progress cs 0 (SLRU_new p)); try assumption.
  - apply Inv_new.
  - reflexivity.
  - constructor.
Qed.

Lemma X11_fallback_policy_never_fails_witness :
  exists rs s,
    run Fallback
      [CallInstantiate; CallInstantiate; CallTouch 0 3%Z; CallTouch 1 4%Z;
       CallGetVictim [mkEntry 1 1] 5%Z; CallReset 1 5%Z; CallInvalidate 0]
      (SLRU_new (mkParams 1 2))
    = Done (rs, s).
Proof.
  apply (X11_fallback_policy_never_fails (mkParams 1 2)).
  - vm_compute. reflexivity.
  - apply (bool_decide_unpack _). vm_compute. reflexivity.
  - apply (bool_decide_unpack _). vm_compute. reflexivity.
Defined.

(** ** [getVictim] while the clock stays below the largest tick *)

Section reached.
Variables (v : variant) (p : Params) (cs : list call) (rs : list reply).
Variables (s : SLRU) (candidates : list ReplaceableEntry) (now : Tick).
Hypothesis Hrun : run v cs (SLRU_new p) = Done (rs, s).
Hypothesis Hclock : clock_in below_MaxTick cs.
Hypothesis Hlive : live s candidates.

Lemma reached_tick j e d :
  candidates !! j = Some e -> objects s !! replacementData e = Some d ->
  (lastTouch d < MaxTick)%Z.
Proof using Hrun Hclock.
  intros _ Hd.
  exact (Forall_lookup_1 _ _ _ _ (reached_below_MaxTick _ _ _ _ _ Hrun Hclock) Hd).
Qed.

(** X12. Victim preference. In a state reached with the clock below the
    largest tick, on candidates with at least one probationary entry, both
    copies of [getVictim] return the probationary candidate of smallest
    tick, the first one on a tie, whatever the protected candidates' ticks
    are, and leave the state unchanged. *)
Theorem X12_victim_preference_below_MaxTick :
  (exists j e d, candidates !! j = Some e /\
     objects s !! replacementData e = Some d /\ segment d = Probation) ->
  exists i e,
    is_oldest Probation (objects s) candidates i e /\
    getVictim candidates now s = Done (Some e, s) /\
    getVictim_strict candidates s = Done (Some e, s).
Proof using Hrun Hclock Hlive.
  intros (j & e & d & Hj & Hd & Hseg).
  apply (getVictim_primary_rule s candidates now Hlive).
  exists j, e, d. split_and!; try assumption. eapply reached_tick; eassumption.
Qed.

(** X13. Fallback. In a state reached with the clock below the largest
    tick, on a non-empty list of protected candidates, [getVictim] of
    [slru_rp.cc] returns the candidate of smallest tick (the first on a
    tie) after making it [Probation] with the current tick, erasing it
    from [protectedList] and decrementing [protectedEntries]; the tracker
    invariant holds afterwards. The strict copy fails its assertion. *)
Theorem X13_fallback_below_MaxTick :
  candidates <> [] ->
  (forall j e d, candidates !! j = Some e ->
     objects s !! replacementData e = Some d -> segment d = Protected) ->
  exists i e s',
    is_oldest Protected (objects s) candidates i e /\
    getVictim candidates now s = Done (Some e, s') /\
    (objects s' !! replacementData e
     = Some {| segment := Probation; lastTouch := now |}) /\
    (replacementData e ∉ protectedList s') /\
    protectedEntries s' = (protectedEntries s - 1)%Z /\
    Inv s' /\
    getVictim_strict candidates s = AssertFail.
Proof using Hrun Hclock Hlive.
  intros Hne Hall.
  apply (getVictim_fallback_rule s candidates now Hlive).
  - exact (run_Inv v cs _ _ _ (Inv_new p) Hrun).
  - exact Hall.
  - assert (H0 : exists e0, candidates !! 0 = Some e0).
    { clear Hlive Hall. destruct candidates; [contradiction|eauto]. }
    destruct H0 as [e0 He0].
    pose proof (Forall_lookup_1 _ _ _ _ Hlive He0) as [d0 Hd0].
    exists 0, e0, d0. split_and!; [exact He0|exact Hd0| |].
    + eapply (Hall 0); [exact He0|exact Hd0].
    + eapply (reached_tick 0); [exact He0|exact Hd0].
Qed.

(** X14. Failure conditions. In a state reached with the clock below the
    largest tick, on live candidates: [getVictim] of [slru_rp.cc] fails an
    assertion exactly on the empty candidate list, and the strict copy
    exactly on the empty list and on lists with no probationary entry. *)
Theorem X14_assertions_below_MaxTick :
  (getVictim candidates now s = AssertFail <-> candidates = []) /\
  (getVictim_strict candidates s = AssertFail <->
     candidates = [] \/
     forall j e d, candidates !! j = Some e ->
       objects s !! replacementData e = Some d -> segment d <> Probation).
Proof using Hrun Hclock Hlive.
  apply (getVictim_aborts_iff s candidates now Hlive). exact reached_tick.
Qed.

End reached.

Lemma X12_victim_preference_below_MaxTick_witness :
  let s := {| protectedSize := 1%Z; probationSize := 2%Z;
              protectedEntries := 1%Z; protectedList := [1];
              objects := [ {| segment := Probation; lastTouch := 3%Z |};
                           {| segment := Protected; lastTouch := 4%Z |} ] |} in
  exists i e,
    is_oldest Probation (objects s) [mkEntry 1 1; mkEntry 0 0] i e /\
    getVictim [mkEntry 1 1; mkEntry 0 0] 5%Z s = Done (Some e, s) /\
    getVictim_strict [mkEntry 1 1; mkEntry 0 0] s = Done (Some e, s).
Proof.
  intros s.
  apply (X12_victim_preference_below_MaxTick Fallback (mkParams 1 2)
           [CallInstantiate; CallInstantiate; CallTouch 0 3%Z; CallTouch 1 4%Z]
           [RetData 0; RetData 1; RetVoid; RetVoid]
           s [mkEntry 1 1; mkEntry 0 0] 5%Z).
  - vm_compute. reflexivity.
  - apply (bool_decide_unpack _). vm_compute. reflexivity.
  - apply (bool_decide_unpack _). vm_compute. reflexivity.
  - exists 1, (mkEntry 0 0), {| segment := Probation; lastTouch := 3%Z |}.
    split_and!; reflexivity.
Defined.

Lemma X13_fallback_below_MaxTick_witness :
  let s := {| protectedSize := 1%Z; probationSize := 2%Z;
              protectedEntries := 1%Z; protectedList := [1];
              objects := [ {| segment := Probation; lastTouch := 3%Z |};
                           {| segment := Protected; lastTouch := 4%Z |} ] |} in
  exists i e s',
    is_oldest Protected (objects s) [mkEntry 1 1] i e /\
    getVictim [mkEntry 1 1] 5%Z s = Done (Some e, s') /\
    (objects s' !! replacementData e
     = Some {| segment := Probation; lastTouch := 5%Z |}) /\
    (replacementData e ∉ protectedList s') /\
    protectedEntries s' = (protectedEntries s - 1)%Z /\
    Inv s' /\
    getVictim_strict [mkEntry 1 1] s = AssertFail.
Proof.
  intros s.
  apply (X13_fallback_below_MaxTick Fallback (mkParams 1 2)
           [CallInstantiate; CallInstantiate; CallTouch 0 3%Z; CallTouch 1 4%Z]
           [RetData 0; RetData 1; RetVoid; RetVoid]
           s [mkEntry 1 1] 5%Z).
  - vm_compute. reflexivity.
  - apply (bool_decide_unpack _). vm_compute. reflexivity.
  - apply (bool_decide_unpack _). vm_compute. reflexivity.
  - discriminate.
  - intros [|j] e d He Hd; simpl in He; [|rewrite lookup_nil in He; discriminate].
    injection He as <-. simpl in Hd. injection Hd as <-. reflexivity.
Defined.

Lemma X14_assertions_below_MaxTick_witness :
  let s := {| protectedSize := 1%Z; probationSize := 2%Z;
              protectedEntries := 1%Z; protectedList := [1];
              objects := [ {| segment := Probation; lastTouch := 3%Z |};
                           {| segment := Protected; lastTouch := 4%Z |} ] |} in
  (getVictim [mkEntry 1 1] 5%Z s = AssertFail <-> [mkEntry 1 1] = []) /\
  (getVictim_strict [mkEntry 1 1] s = AssertFail <->
     [mkEntry 1 1] = [] \/
     forall j e d, [mkEntry 1 1] !! j = Some e ->
       objects s !! replacementData e = Some d -> segment d <> Probation).
Proof.
  intros s.
  apply (X14_assertions_below_MaxTick Fallback (mkParams 1 2)
           [CallInstantiate; CallInstantiate; CallTouch 0 3%Z; CallTouch 1 4%Z]
           [RetData 0; RetData 1; RetVoid; RetVoid]
           s [mkEntry 1 1] 5%Z).
  - vm_compute. reflexivity.
  - apply (bool_decide_unpack _). vm_compute. reflexivity.
  - apply (bool_decide_unpack _). vm_compute. reflexivity.
Defined.
